(** * CouplerStuff: fringe-packet simulation and group-delay estimation

    A shallow embedding of [fringe_functions.py] and of the tracking loop of
    [group_delay_sim_loop.py].

    Numbers.  Python's binary64 floats are idealised as the real numbers of
    the Standard Library: arithmetic is exact, and the non-finite values
    (inf, nan) are outside the model.  A division whose divisor is zero and a
    square root of a negative number take the Standard Library's values.

    Arrays.  A numpy value is a scalar or a one-dimensional array; binary
    operations broadcast as numpy does and raise [ValueError] on shapes that
    do not match.

    Effects.  Exceptions are values of [result]; numpy's global random
    generator is an explicit [RandomState] threaded through the simulators;
    matplotlib's figures are a log of plotted curves. *)

From Stdlib Require Import Reals Lra Lia List Bool Arith ZArith Psatz.
Import ListNotations.

Local Open Scope R_scope.

(* ================================================================== *)
(** * Exceptions *)

Inductive exn : Type :=
| ValueError
| IndexError
| UnboundLocalError.

Inductive result (A : Type) : Type :=
| Ok (a : A)
| Raise (e : exn).

Arguments Ok {A} a.
Arguments Raise {A} e.

Definition bind {A B : Type} (m : result A) (k : A -> result B) : result B :=
  match m with
  | Ok a => k a
  | Raise e => Raise e
  end.

Notation "x <- m ;; k" := (bind m (fun x => k))
  (at level 61, m at next level, right associativity).

(* ================================================================== *)
(** * Complex numbers (Python's [complex]) *)

Record complex : Type := mkC { Re : R; Im : R }.

Definition RtoC (x : R) : complex := mkC x 0.
Definition Cj : complex := mkC 0 1.

Definition Cadd (a b : complex) : complex := mkC (Re a + Re b) (Im a + Im b).
Definition Csub (a b : complex) : complex := mkC (Re a - Re b) (Im a - Im b).
Definition Cmul (a b : complex) : complex :=
  mkC (Re a * Re b - Im a * Im b) (Re a * Im b + Im a * Re b).
Definition Cdiv (a b : complex) : complex :=
  let d := Re b * Re b + Im b * Im b in
  mkC ((Re a * Re b + Im a * Im b) / d) ((Im a * Re b - Re a * Im b) / d).
Definition Cexp (a : complex) : complex :=
  mkC (exp (Re a) * cos (Im a)) (exp (Re a) * sin (Im a)).
Definition Cabs (a : complex) : R := sqrt (Re a * Re a + Im a * Im a).

(** The arithmetic operators, shared by the two dtypes. *)
Class Num (A : Type) : Type := {
  add : A -> A -> A;
  sub : A -> A -> A;
  mul : A -> A -> A;
  div : A -> A -> A
}.

#[export] Instance Num_R : Num R :=
  {| add := Rplus; sub := Rminus; mul := Rmult; div := Rdiv |}.
#[export] Instance Num_complex : Num complex :=
  {| add := Cadd; sub := Csub; mul := Cmul; div := Cdiv |}.

(* ================================================================== *)
(** * The part of numpy the program uses *)

Module np.

Inductive ndarray (A : Type) : Type :=
| Scalar (x : A)
| Array (xs : list A).

Arguments Scalar {A} x.
Arguments Array {A} xs.

Definition nd_map {A B : Type} (f : A -> B) (a : ndarray A) : ndarray B :=
  match a with
  | Scalar x => Scalar (f x)
  | Array xs => Array (map f xs)
  end.

Fixpoint zip_with {A B C : Type} (f : A -> B -> C)
         (xs : list A) (ys : list B) : list C :=
  match xs, ys with
  | x :: xs', y :: ys' => f x y :: zip_with f xs' ys'
  | _, _ => []
  end.

(** Broadcasting of a binary operation: shapes [(n,)] and [(m,)] are
    compatible when [n = m] or one of them is [1]. *)
Definition broadcast2 {A B C : Type} (f : A -> B -> C)
           (a : ndarray A) (b : ndarray B) : result (ndarray C) :=
  match a, b with
  | Scalar x, Scalar y => Ok (Scalar (f x y))
  | Scalar x, Array ys => Ok (Array (map (f x) ys))
  | Array xs, Scalar y => Ok (Array (map (fun x => f x y) xs))
  | Array xs, Array ys =>
      if Nat.eqb (length xs) (length ys) then Ok (Array (zip_with f xs ys))
      else match xs, ys with
           | [x], _ => Ok (Array (map (f x) ys))
           | _, [y] => Ok (Array (map (fun x => f x y) xs))
           | _, _ => Raise ValueError
           end
  end.

(** Operators on expressions: the left operand is evaluated first and an
    exception of an operand is the exception of the expression. *)
Definition ufunc1 {A B : Type} (f : A -> B)
           (a : result (ndarray A)) : result (ndarray B) :=
  a' <- a ;; Ok (nd_map f a').

Definition ufunc2 {A B C : Type} (f : A -> B -> C)
           (a : result (ndarray A)) (b : result (ndarray B))
  : result (ndarray C) :=
  a' <- a ;; b' <- b ;; broadcast2 f a' b'.

Definition pi : R := PI.

(** [np.sinc]: the normalised sinc, sin(pi x)/(pi x), with value 1 at 0. *)
Definition sinc1 (x : R) : R :=
  if Req_dec_T x 0 then 1 else sin (PI * x) / (PI * x).

(** [np.round] on one value: to the nearest integer, halves to the even
    neighbour. *)
Definition round1 (x : R) : R :=
  let n := Int_part x in
  let d := x - IZR n in
  if Rlt_dec d (1 / 2) then IZR n
  else if Rlt_dec (1 / 2) d then IZR (n + 1)
  else if Z.even n then IZR n else IZR (n + 1).

Definition sinc : result (ndarray R) -> result (ndarray R) := ufunc1 sinc1.
Definition cos : result (ndarray R) -> result (ndarray R) := ufunc1 Rtrigo_def.cos.
Definition sqrt : result (ndarray R) -> result (ndarray R) := ufunc1 R_sqrt.sqrt.
Definition round : result (ndarray R) -> result (ndarray R) := ufunc1 round1.
Definition exp : result (ndarray complex) -> result (ndarray complex) :=
  ufunc1 Cexp.
Definition abs : result (ndarray complex) -> result (ndarray R) :=
  ufunc1 Cabs.

(** Implicit promotion of a float operand in a complex expression. *)
Definition astype_complex : result (ndarray R) -> result (ndarray complex) :=
  ufunc1 RtoC.

(** [np.sum] of a scalar or of a one-dimensional array. *)
Definition sum_list {A : Type} `{Num A} (zero : A) (xs : list A) : A :=
  fold_left add xs zero.

Definition sum {A : Type} `{Num A} (zero : A) (a : result (ndarray A))
  : result A :=
  a' <- a ;;
  match a' with
  | Scalar x => Ok x
  | Array xs => Ok (sum_list zero xs)
  end.

(** [np.mean] of a one-dimensional float array (the mean of an empty array
    is nan, outside the model: it is left as the division by the zero
    length). *)
Definition mean (a : result (ndarray R)) : result R :=
  a' <- a ;;
  match a' with
  | Scalar x => Ok x
  | Array xs => Ok (sum_list 0 xs / INR (length xs))
  end.

(** [np.argmax] of a one-dimensional array: the index of the first
    occurrence of the maximum; [ValueError] on an empty array. *)
Fixpoint argmax_from (xs : list R) (i : nat) (best : R) (best_i : nat) : nat :=
  match xs with
  | [] => best_i
  | x :: xs' =>
      if Rlt_dec best x then argmax_from xs' (S i) x i
      else argmax_from xs' (S i) best best_i
  end.

Definition argmax (a : ndarray R) : result nat :=
  match a with
  | Scalar _ => Ok 0%nat
  | Array [] => Raise ValueError
  | Array (x :: xs') => Ok (argmax_from xs' 1%nat x 0%nat)
  end.

(** [a[i]] for a non-negative index. *)
Definition getitem {A : Type} (xs : list A) (i : nat) : result A :=
  match nth_error xs i with
  | Some x => Ok x
  | None => Raise IndexError
  end.

(** [np.zeros(n)] and [np.zeros((m, n))]. *)
Definition zeros (n : nat) : list R := repeat 0 n.
Definition zeros2 (m n : nat) : list (list R) := repeat (zeros n) m.

(** [a[i] = v] on a two-dimensional array: [v] is broadcast to the row. *)
Fixpoint set_nth {A : Type} (xs : list A) (i : nat) (v : A) : list A :=
  match xs, i with
  | [], _ => []
  | _ :: xs', O => v :: xs'
  | x :: xs', S i' => x :: set_nth xs' i' v
  end.

Definition setrow (a : list (list R)) (i : nat) (v : ndarray R)
  : result (list (list R)) :=
  match nth_error a i with
  | None => Raise IndexError
  | Some row =>
      match v with
      | Scalar x => Ok (set_nth a i (repeat x (length row)))
      | Array xs =>
          if Nat.eqb (length xs) (length row) then Ok (set_nth a i xs)
          else match xs with
               | [x] => Ok (set_nth a i (repeat x (length row)))
               | _ => Raise ValueError
               end
      end
  end.

(** [np.sum(a, axis=0)]: the sum of the rows, channel by channel. *)
Definition sum_axis0 (n : nat) (a : list (list R)) : list R :=
  fold_left (zip_with Rplus) a (zeros n).

(** ** The global random generator, as explicit state.

    The draws are supplied by the state: [rs_uniform k] is the value of the
    [k]-th draw when it is a [random_sample], [rs_normal k] when it is a
    standard normal, [rs_poisson k lam] when it is a Poisson draw of mean
    [lam].  [rs_pos] counts the draws made so far. *)
Record RandomState : Type := mkRandomState {
  rs_pos : nat;
  rs_uniform : nat -> R;
  rs_normal : nat -> R;
  rs_poisson : nat -> R -> R
}.

Definition advance (k : nat) (s : RandomState) : RandomState :=
  mkRandomState (rs_pos s + k) (rs_uniform s) (rs_normal s) (rs_poisson s).

(** [np.random.random_sample()] *)
Definition random_sample (s : RandomState) : R * RandomState :=
  (rs_uniform s (rs_pos s), advance 1 s).

(** [np.random.normal(scale=sigma)]: ONE draw, a scalar. *)
Definition normal (scale : R) (s : RandomState) : R * RandomState :=
  (0 + scale * rs_normal s (rs_pos s), advance 1 s).

(** [np.random.poisson(lam)]: one draw per element of [lam].  numpy
    checks the means before it draws, and raises [ValueError] when one of
    them is negative. *)
Fixpoint poisson_list (lams : list R) (k : nat) (s : RandomState) : list R :=
  match lams with
  | [] => []
  | lam :: lams' => rs_poisson s k lam :: poisson_list lams' (S k) s
  end.

Definition negative (x : R) : bool := if Rlt_dec x 0 then true else false.

Definition poisson (lam : ndarray R) (s : RandomState)
  : result (ndarray R * RandomState) :=
  match lam with
  | Scalar x =>
      if negative x then Raise ValueError
      else Ok (Scalar (rs_poisson s (rs_pos s) x), advance 1 s)
  | Array xs =>
      if existsb negative xs then Raise ValueError
      else Ok (Array (poisson_list xs (rs_pos s) s), advance (length xs) s)
  end.

(** ** [np.median]

    The values are sorted and the mean of the middle slice is taken: one
    element for an odd length, two for an even length (the middle slice of
    an empty list is empty, and its mean is that of [mean]). *)
Fixpoint insert_sorted (x : R) (l : list R) : list R :=
  match l with
  | [] => [x]
  | y :: l' => if Rle_dec x y then x :: l else y :: insert_sorted x l'
  end.

Fixpoint sort (l : list R) : list R :=
  match l with
  | [] => []
  | x :: l' => insert_sorted x (sort l')
  end.

Definition median (a : list R) : R :=
  let part := sort a in
  let sz := length a in
  let index := (sz / 2)%nat in
  let middle :=
    if Nat.odd sz then skipn index (firstn (index + 1) part)
    else skipn (index - 1) (firstn (index + 1) part) in
  sum_list 0 middle / INR (length middle).

End np.

(** ** Expression syntax

    Python expressions over numpy values are written with the operators of
    [np_scope]; [#x] is a Python scalar and [!a] a numpy value used as an
    operand. *)

Definition nd : Type := np.ndarray R.
Definition expr : Type := result nd.
Definition cexpr : Type := result (np.ndarray complex).

Definition lit (x : R) : expr := Ok (np.Scalar x).
Definition val (a : nd) : expr := Ok a.
Definition clit (z : complex) : cexpr := Ok (np.Scalar z).

Declare Scope np_scope.
Delimit Scope np_scope with np.
Notation "a + b" := (np.ufunc2 add a b) : np_scope.
Notation "a - b" := (np.ufunc2 sub a b) : np_scope.
Notation "a * b" := (np.ufunc2 mul a b) : np_scope.
Notation "a / b" := (np.ufunc2 div a b) : np_scope.
Notation "a ** n" := (np.ufunc1 (fun x : R => x ^ n) a)
  (at level 30, right associativity) : np_scope.
Notation "# x" := (lit x) (at level 9, x at level 9, format "# x") : np_scope.
Notation "! a" := (val a) (at level 9, a at level 9, format "! a") : np_scope.

(* ================================================================== *)
(** * fringe_functions.py *)

Module fringe_functions.

Local Open Scope np_scope.

(** [fringe_flux(x,lam,bandpass,F_0,vis,coh_phase,disp_phase=0,offset=0)] *)
Definition fringe_flux (x lam bandpass F_0 vis coh_phase disp_phase offset : nd)
  : expr :=
  let envelope := np.sinc (!x * !bandpass / !lam ** 2) in
  !F_0 * (#1 + envelope * !vis *
               np.cos (#2 * #np.pi * !x / !lam - !coh_phase
                       - !disp_phase - !offset)).

(** ** Refractive index and dispersion *)

Definition B1 : R := 1.03961212.
Definition B2 : R := 0.231792344.
Definition B3 : R := 1.01046945.
Definition C1 : R := 6.00069867e-3.
Definition C2 : R := 2.00179144e-2.
Definition C3 : R := 103.560653.

Definition sellmeier_equation (lam : nd) : expr :=
  let n2 := #1 + #B1 * !lam ** 2 / (#C1 ** 2 - !lam ** 2)
               + #B2 * !lam ** 2 / (#C2 ** 2 - !lam ** 2)
               + #B3 * !lam ** 2 / (#C3 ** 2 - !lam ** 2) in
  np.sqrt n2.

Definition calc_group_index (lam : nd) : expr :=
  let n := sellmeier_equation lam in
  let a1 := #B1 * !lam ** 2 / (#C1 ** 2 - !lam ** 2) ** 2 in
  let a2 := #B1 / (#C1 ** 2 - !lam ** 2) in
  let a3 := #B2 * !lam ** 2 / (#C2 ** 2 - !lam ** 2) ** 2 in
  let a4 := #B2 / (#C2 ** 2 - !lam ** 2) in
  let a5 := #B3 * !lam ** 2 / (#C3 ** 2 - !lam ** 2) ** 2 in
  let a6 := #B3 / (#C3 ** 2 - !lam ** 2) in
  let adjustment_factor := !lam ** 2 * (a1 + a2 + a3 + a4 + a5 + a6) / n in
  n - adjustment_factor.

Definition phaseshift_glass (lam length lam_0 : nd) : expr :=
  let n := sellmeier_equation lam in
  let n_grp := calc_group_index lam_0 in
  let OPD := (n - n_grp) * !length in
  let phase_shift := OPD * #2 * #np.pi / !lam in
  phase_shift.

(** ** Tricoupler functions *)

(** A [for] loop over a sequence, with the loop's variables as state. *)
Fixpoint for_each {A S : Type} (xs : list A) (body : S -> A -> result S)
         (s : S) : result S :=
  match xs with
  | [] => Ok s
  | x :: xs' => s' <- body s x ;; for_each xs' body s'
  end.

(** [fluxes[i]] as an expression. *)
Definition row (fluxes : list (list R)) (i : nat) : expr :=
  r <- np.getitem fluxes i ;; Ok (np.Array r).

Definition cal_coherence (delay_bad delay_fix : R) (wavelengths : list R)
           (bandpass : nd) (true_params : R * R * R) (s : np.RandomState)
  : result (np.ndarray complex * np.RandomState) :=
  let '(F_0, vis, coh_phase) := true_params in
  let eff_delay := (delay_bad - delay_fix)%R in
  let fluxes := np.zeros2 3 (length wavelengths) in
  let i := 0%nat in
  st <- for_each (map (fun k => (2 * np.pi / 3 * k)%R) [0; 1; 2])
          (fun '(fluxes, i, s) output_offset =>
             flux <- fringe_flux (np.Scalar eff_delay) (np.Array wavelengths)
                       bandpass (np.Scalar F_0) (np.Scalar vis)
                       (np.Scalar coh_phase) (np.Scalar 0)
                       (np.Scalar output_offset) ;;
             r <- np.poisson flux s ;;
             let '(shot_noise, s) := r in
             let '(read_noise, s) := np.normal 1.6 s in
             v <- np.round (!shot_noise + #read_noise) ;;
             fluxes <- np.setrow fluxes i v ;;
             let i := (i + 1)%nat in
             Ok (fluxes, i, s))
          (fluxes, i, s) ;;
  let '(fluxes, _, s) := st in
  gamma <- (np.astype_complex (#3 * row fluxes 0)
            + np.astype_complex (np.sqrt #3) * clit Cj
              * np.astype_complex (row fluxes 2 - row fluxes 1))
           / np.astype_complex
               (Ok (np.Array (np.sum_axis0 (length wavelengths) fluxes)))
           - np.astype_complex #1 ;;
  Ok (gamma, s).

Definition find_white_fringe (gamma : np.ndarray complex) (delay : R)
           (wavelengths : nd) : result R :=
  let phasors :=
    Ok gamma * np.exp (clit Cj * np.astype_complex #2
                       * np.astype_complex #np.pi
                       / np.astype_complex !wavelengths
                       * np.astype_complex #delay) in
  total <- np.sum (RtoC 0) phasors ;;
  Ok (Cabs total ^ 2).

(** A curve handed to [plt.plot] and shown. *)
Definition figure : Type := (list R * list R)%type.

Definition group_delay_envelope (gamma : np.ndarray complex)
           (trial_delays : list R) (wavelengths : nd) (plot : bool)
  : result (nd * list figure) :=
  let F_array := [] in
  F_array <- for_each trial_delays
               (fun F_array delay =>
                  F <- find_white_fringe gamma delay wavelengths ;;
                  Ok (F_array ++ [F]))
               F_array ;;
  if plot then Ok (np.Array F_array, [(trial_delays, F_array)])
  else Ok (np.Array F_array, []).

Definition find_delay (delay_envelope : nd) (trial_delays : list R)
  : result R :=
  i <- np.argmax delay_envelope ;;
  np.getitem trial_delays i.

(** ** AC functions *)


Definition calc_chi_2_AC (gamma_r : nd) (delay : R) (wavelengths : nd)
           (length lam_0 : R) : result R :=
  let chi_lam :=
    (np.cos (#2 * #np.pi * #delay / !wavelengths
             - phaseshift_glass wavelengths (np.Scalar length)
                 (np.Scalar lam_0))
     - !gamma_r) ** 2 in
  np.sum 0 chi_lam.

(** Reading a local variable that may not have been assigned. *)
Definition local {A : Type} (v : option A) : result A :=
  match v with
  | Some x => Ok x
  | None => Raise UnboundLocalError
  end.

Definition find_delay_AC (gamma_r : nd) (trial_delays : list R)
           (wavelengths : nd) (length lam_0 : R) (plot : bool)
  : result R * list figure :=
  let chi_2_min := 1e10 in
  let delay_min : option R := None in
  if plot then
    let chi_2_plot_array := [] in
    match
      for_each trial_delays
        (fun '(chi_2_min, delay_min, chi_2_plot_array) delay =>
           chi_2 <- calc_chi_2_AC gamma_r delay wavelengths length lam_0 ;;
           let chi_2_plot_array := chi_2_plot_array ++ [chi_2] in
           if Rlt_dec chi_2 chi_2_min
           then Ok (chi_2, Some delay, chi_2_plot_array)
           else Ok (chi_2_min, delay_min, chi_2_plot_array))
        (chi_2_min, delay_min, chi_2_plot_array)
    with
    | Raise e => (Raise e, [])
    | Ok (_, delay_min, chi_2_plot_array) =>
        (local delay_min, [(trial_delays, chi_2_plot_array)])
    end
  else
    match
      for_each trial_delays
        (fun '(chi_2_min, delay_min) delay =>
           chi_2 <- calc_chi_2_AC gamma_r delay wavelengths length lam_0 ;;
           if Rlt_dec chi_2 chi_2_min
           then Ok (chi_2, Some delay)
           else Ok (chi_2_min, delay_min))
        (chi_2_min, delay_min)
    with
    | Raise e => (Raise e, [])
    | Ok (_, delay_min) => (local delay_min, [])
    end.

End fringe_functions.

(* ================================================================== *)
(** * group_delay_sim_loop.py: the tracking loop *)

Module group_delay_sim_loop.

Import fringe_functions.
Local Open Scope np_scope.

(** Python's [int(x)] on a float: truncation towards zero. *)
Definition py_int (x : R) : Z :=
  if Rle_dec 0 x then Int_part x else (- Int_part (- x))%Z.

(** ** The script's constants *)

Definition seeing : R := 1.
Definition start_wavelength : R := 600e-9.
Definition end_wavelength : R := 750e-9.
Definition r0 : R := (0.98 * start_wavelength * 180 * 3600 / np.pi / seeing)%R.
Definition v : R := 20.
Definition t0 : R := (0.31 * (r0 / v))%R.
Definition coh_int_time : R := (1.6 * t0)%R.
Definition incoh_int_time : R := (30 * t0)%R.

(** The configuration the loop reads.  The channel list and the trial
    delays come from [np.arange], whose length depends on rounding: they
    are inputs here. *)
Record Config : Type := mkConfig {
  wavelengths : list R;
  bandpass : R;
  true_params : R * R * R;
  trial_delays : list R;
  a : R;
  num_group_delay_frames : Z;
  error_rms : R;
  n_iter : nat;
  bias_vis : R
}.

Definition script_config (wavelengths trial_delays : list R)
           (true_params : R * R * R) (bias_vis : R) : Config :=
  {| wavelengths := wavelengths;
     bandpass := 15e-9;
     true_params := true_params;
     trial_delays := trial_delays;
     a := (1 - exp (- coh_int_time / incoh_int_time))%R;
     num_group_delay_frames := py_int (incoh_int_time / coh_int_time)%R;
     error_rms := 2e-5;
     n_iter := 100;
     bias_vis := bias_vis |}.

(** ** The loop's variables *)

Record State : Type := mkState {
  vis_array : list R;
  ave_delay_envelope : nd;
  frame_num : Z;
  fix_delay : R;
  rng : np.RandomState
}.

Definition setup (cfg : Config) (s : np.RandomState) : State :=
  {| vis_array := [];
     ave_delay_envelope := np.Array (np.zeros (length (trial_delays cfg)));
     frame_num := 0;
     fix_delay := 0;
     rng := s |}.

Definition Copp (z : complex) : complex := mkC (- Re z) (- Im z).

(** One iteration of [for j in range(n_iter)]. *)
Definition frame (cfg : Config) (st : State) (j : nat) : result State :=
  let '(u, s) := np.random_sample (rng st) in
  let bad_delay := (2 * error_rms cfg * u - error_rms cfg)%R in
  r <- cal_coherence bad_delay 0 (wavelengths cfg)
         (np.Scalar (bandpass cfg)) (true_params cfg) s ;;
  let '(gamma, s) := r in
  r <- group_delay_envelope gamma (trial_delays cfg)
         (np.Array (wavelengths cfg)) false ;;
  let '(delay_envelope, _) := r in
  ave_delay_envelope <-
    #(a cfg) * !delay_envelope
    + #(1 - a cfg)%R * !(ave_delay_envelope st) ;;
  if (frame_num st <? num_group_delay_frames cfg)%Z then
    fix_delay <- find_delay ave_delay_envelope (trial_delays cfg) ;;
    new_gamma <-
      Ok gamma
      / np.astype_complex
          (np.sinc (#fix_delay * #(bandpass cfg)
                    / !(np.Array (wavelengths cfg)) ** 2))
      * np.exp (clit (Copp Cj) * np.astype_complex #2
                * np.astype_complex #np.pi
                * np.astype_complex #fix_delay
                / np.astype_complex !(np.Array (wavelengths cfg))) ;;
    m <- np.mean (np.abs (Ok new_gamma) ** 2) ;;
    Ok {| vis_array := vis_array st ++ [(m - bias_vis cfg)%R];
          ave_delay_envelope := ave_delay_envelope;
          frame_num := (frame_num st + 1)%Z;
          fix_delay := fix_delay;
          rng := s |}
  else
    Ok {| vis_array := vis_array st;
          ave_delay_envelope := ave_delay_envelope;
          frame_num := (frame_num st + 1)%Z;
          fix_delay := fix_delay st;
          rng := s |}.

(** The first [n] iterations of the loop, from the set-up. *)
Definition frames (cfg : Config) (n : nat) (s : np.RandomState)
  : result State :=
  for_each (seq 0 n) (frame cfg) (setup cfg s).

Definition tracking_loop (cfg : Config) (s : np.RandomState) : result State :=
  frames cfg (n_iter cfg) s.

(** ** The bias of the squared visibility

    The loop that runs first: [n_iter] frames with zero visibility, the mean
    squared modulus of each, and the median of those as the bias. *)
Definition bias_frame (cfg : Config) (st : list R * np.RandomState) (j : nat)
  : result (list R * np.RandomState) :=
  let '(vis_array, s) := st in
  let '(F_0, _, _) := true_params cfg in
  let '(u, s) := np.random_sample s in
  let bad_delay := (2 * error_rms cfg * u - error_rms cfg)%R in
  r <- cal_coherence bad_delay 0 (wavelengths cfg)
         (np.Scalar (bandpass cfg)) (F_0, 0, np.pi / 3)%R s ;;
  let '(gamma, s) := r in
  m <- np.mean (np.abs (Ok gamma) ** 2) ;;
  Ok (vis_array ++ [m], s).

Definition calc_bias (cfg : Config) (s : np.RandomState)
  : result (R * np.RandomState) :=
  st <- for_each (seq 0 (n_iter cfg)) (bias_frame cfg) ([], s) ;;
  let '(vis_array, s) := st in
  Ok (np.median vis_array, s).



End group_delay_sim_loop.

(* ================================================================== *)
(** * The formulas of the specification, channel by channel *)

Module formulas.

Import fringe_functions.

(** Intensity = flux x (1 + envelope x visibility x cos(2 pi delay/wavelength
    - coherence_phase - dispersion_phase - output_offset)), the envelope
    being sinc(delay bandpass / wavelength^2). *)
Definition intensity (x lam bandpass F_0 vis coh_phase disp_phase offset : R) : R :=
  F_0 * (1 + np.sinc1 (x * bandpass / lam ^ 2) * vis
             * cos (2 * PI * x / lam - coh_phase - disp_phase - offset)).

(** The radicand of the three-term Sellmeier formula, and the phase index. *)
Definition sellmeier_n2 (lam : R) : R :=
  1 + B1 * lam ^ 2 / (C1 ^ 2 - lam ^ 2)
    + B2 * lam ^ 2 / (C2 ^ 2 - lam ^ 2)
    + B3 * lam ^ 2 / (C3 ^ 2 - lam ^ 2).

Definition n_phase (lam : R) : R := sqrt (sellmeier_n2 lam).

(** The derivative-corrected group index. *)
Definition n_group (lam : R) : R :=
  n_phase lam
  - lam ^ 2 * (B1 * lam ^ 2 / (C1 ^ 2 - lam ^ 2) ^ 2 + B1 / (C1 ^ 2 - lam ^ 2)
               + B2 * lam ^ 2 / (C2 ^ 2 - lam ^ 2) ^ 2 + B2 / (C2 ^ 2 - lam ^ 2)
               + B3 * lam ^ 2 / (C3 ^ 2 - lam ^ 2) ^ 2 + B3 / (C3 ^ 2 - lam ^ 2))
    / n_phase lam.

(** phase = OPD x 2 pi / wavelength, OPD = (phase index at the wavelength
    minus group index at the reference wavelength) x extra glass length. *)
Definition glass_dispersion_phase (lam length lam_0 : R) : R :=
  (n_phase lam - n_group lam_0) * length * (2 * PI) / lam.

(** The model prediction of the AC path for one channel. *)
Definition ac_model (delay length lam_0 lam : R) : R :=
  cos (2 * PI * delay / lam - glass_dispersion_phase lam length lam_0).

(** The noise of the simulators.  Output fibre [o] of a simulator with [n]
    channels makes [n] Poisson draws, one per channel, and then ONE normal
    draw: its draws start at position [rs_pos s + o (n + 1)]. *)
Definition shot_noise (s : np.RandomState) (n o k : nat) (flux : R) : R :=
  np.rs_poisson s (np.rs_pos s + o * (n + 1) + k) flux.

Definition read_noise (s : np.RandomState) (n o : nat) : R :=
  0 + 1.6 * np.rs_normal s (np.rs_pos s + o * (n + 1) + n).

Definition pre_rounding (s : np.RandomState) (n o k : nat) (flux : R) : R :=
  shot_noise s n o k flux + read_noise s n o.

Definition noisy_flux (s : np.RandomState) (n o k : nat) (flux : R) : R :=
  np.round1 (pre_rounding s n o k flux).

(** gamma = (3 F_A + i sqrt(3) (F_C - F_B)) / (F_A + F_B + F_C) - 1, in
    complex arithmetic. *)
Definition tricoupler_gamma (F_A F_B F_C : R) : complex :=
  Csub (Cdiv (Cadd (RtoC (3 * F_A))
                   (Cmul (Cmul (RtoC (sqrt 3)) Cj) (RtoC (F_C - F_B))))
             (RtoC (F_A + F_B + F_C)))
       (RtoC 1).

End formulas.

(* ================================================================== *)
(** * Vocabulary of the proofs *)

(** ** The loop bodies of [find_delay_AC] *)

Section Scan.

Variable chi : R -> result R.

(** The two loop bodies, over the chi-squared function of the call. *)
Definition scan_body : R * option R -> R -> result (R * option R) :=
  fun '(chi_2_min, delay_min) delay =>
  chi_2 <- chi delay ;;
  if Rlt_dec chi_2 chi_2_min
  then Ok (chi_2, Some delay)
  else Ok (chi_2_min, delay_min).

Definition scan_body_plot
  : R * option R * list R -> R -> result (R * option R * list R) :=
  fun '(chi_2_min, delay_min, chi_2_plot_array) delay =>
  chi_2 <- chi delay ;;
  let chi_2_plot_array := chi_2_plot_array ++ [chi_2] in
  if Rlt_dec chi_2 chi_2_min
  then Ok (chi_2, Some delay, chi_2_plot_array)
  else Ok (chi_2_min, delay_min, chi_2_plot_array).

(** What the scan has found: nothing below the bound it started from, or
    the first position of the least value. *)
Inductive scanned (tds : list R) (m : R) (dm : option R)
  : R -> option R -> Prop :=
| scanned_none :
    (forall d c, In d tds -> chi d = Ok c -> m <= c) ->
    scanned tds m dm m dm
| scanned_at (i : nat) (d c : R) :
    nth_error tds i = Some d ->
    chi d = Ok c ->
    c < m ->
    (forall j d' c', nth_error tds j = Some d' -> chi d' = Ok c' ->
                     c <= c' /\ ((j < i)%nat -> c < c')) ->
    scanned tds m dm c (Some d).

End Scan.

(** ** Peak of an envelope *)

(** Index [r] holds the first occurrence of the maximum of [l]. *)
Definition first_max (l : list R) (r : nat) : Prop :=
  exists e, nth_error l r = Some e
            /\ forall j e', nth_error l j = Some e' ->
                            e' <= e /\ ((j < r)%nat -> e' < e).

(** ** The phasor search *)

(** exp(i theta). *)
Definition phasor (theta : R) : complex := mkC (cos theta) (sin theta).

(** The sum of the coherences rotated by the phasors of a trial delay. *)
Definition white_fringe_sum (gs : list complex) (lams : list R) (d : R) : complex :=
  np.sum_list (RtoC 0)
    (np.zip_with (fun g lam => Cmul g (phasor (2 * PI * d / lam))) gs lams).

(** The sum of a list of reals. *)
Definition sum_R (xs : list R) : R := fold_left Rplus xs 0.

(** The coherence of a source seen through a delay [d0]: amplitude [A] and
    phase [phi - 2 pi d0 / lam] in each channel. *)
Definition delayed_coherence (As lams : list R) (phi d0 : R) : list complex :=
  np.zip_with (fun A lam => Cmul (RtoC A) (phasor (phi - 2 * PI * d0 / lam)))
    As lams.



(** A configuration and a random state without noise, for examples. *)
Definition example_config : group_delay_sim_loop.Config :=
  group_delay_sim_loop.script_config [607.5e-9; 622.5e-9] [-1e-6; 0; 1e-6]
    (100, 0.5, PI / 6) 0.

Definition example_draws : np.RandomState :=
  np.mkRandomState 0 (fun _ => 0.5) (fun _ => 0) (fun _ lam => lam).

(** ** The domain of the simulators *)

(** Wavelengths numpy divides by: none is zero. *)
Definition nonzero (lams : list R) : Prop := Forall (fun lam => lam <> 0) lams.

(** A wavelength below the first resonance of the glass: the denominators of
    the Sellmeier formula are positive, the index is a number. *)
Definition in_band (lam : R) : Prop := 0 < lam < fringe_functions.C1.


(** ** The simulators and the loop *)

(** The coherence of one channel as [cal_coherence] computes it from the
    three rows (the sum of the rows starts from the zero array). *)
Definition coherence_of (F_A F_B F_C : R) : complex :=
  Csub (Cdiv (Cadd (RtoC (3 * F_A))
                   (Cmul (Cmul (RtoC (sqrt 3)) Cj) (RtoC (F_C - F_B))))
             (RtoC (0 + F_A + F_B + F_C)))
       (RtoC 1).


(* ================================================================== *)
(** * Evaluation of array expressions *)

Section ArrayFacts.

Context {I A B C : Type}.

Lemma zip_with_length (f : A -> B -> C) (xs : list A) (ys : list B) :
  length xs = length ys -> length (np.zip_with f xs ys) = length xs.
Proof.
  revert ys; induction xs as [|x xs IH]; intros [|y ys] H; simpl in *;
    try discriminate; auto.
Qed.

Lemma zip_with_map_map (f : A -> B -> C) (g : I -> A) (h : I -> B) (l : list I) :
  np.zip_with f (map g l) (map h l) = map (fun i => f (g i) (h i)) l.
Proof. induction l as [|i l IH]; simpl; [reflexivity | now rewrite IH]. Qed.

Lemma zip_with_nth_error (f : A -> B -> C) (xs : list A) (ys : list B)
      (k : nat) (x : A) (y : B) :
  nth_error xs k = Some x -> nth_error ys k = Some y ->
  nth_error (np.zip_with f xs ys) k = Some (f x y).
Proof.
  revert ys k; induction xs as [|x0 xs IH]; intros [|y0 ys] [|k] Hx Hy;
    simpl in *; try discriminate.
  - now inversion Hx; inversion Hy.
  - now apply IH.
Qed.

End ArrayFacts.

Lemma zip_with_map_l {I B C : Type} (f : I -> B -> C) (h : I -> B) (l : list I) :
  np.zip_with f l (map h l) = map (fun i => f i (h i)) l.
Proof. induction l as [|i l IH]; simpl; [reflexivity | now rewrite IH]. Qed.

Lemma zip_with_map_r {I A C : Type} (f : A -> I -> C) (g : I -> A) (l : list I) :
  np.zip_with f (map g l) l = map (fun i => f (g i) i) l.
Proof. induction l as [|i l IH]; simpl; [reflexivity | now rewrite IH]. Qed.

Lemma zip_with_combine {A B C : Type} (f : A -> B -> C) (xs : list A) (ys : list B) :
  np.zip_with f xs ys = map (fun p => f (fst p) (snd p)) (combine xs ys).
Proof.
  revert ys; induction xs as [|x xs IH]; intros [|y ys]; simpl; auto.
  now rewrite IH.
Qed.

Lemma combine_fst {A B : Type} (xs : list A) (ys : list B) :
  length xs = length ys -> map fst (combine xs ys) = xs.
Proof.
  revert ys; induction xs as [|x xs IH]; intros [|y ys] H; simpl in *;
    try discriminate; auto.
  f_equal; auto.
Qed.

Lemma combine_snd {A B : Type} (xs : list A) (ys : list B) :
  length xs = length ys -> map snd (combine xs ys) = ys.
Proof.
  revert ys; induction xs as [|x xs IH]; intros [|y ys] H; simpl in *;
    try discriminate; auto.
  f_equal; auto.
Qed.

(** Unfolds the operators of an expression whose operands are scalars and
    arrays over one index list, leaving a single [map] over that list. *)
Ltac nd_step :=
  cbn [bind np.ufunc1 np.ufunc2 np.broadcast2 np.nd_map val lit clit
       np.sinc np.cos np.sqrt np.round np.exp np.abs np.astype_complex];
  rewrite ?length_map, ?Nat.eqb_refl, ?zip_with_map_map, ?zip_with_map_l,
    ?zip_with_map_r, ?map_map.

Ltac nd_eval := repeat (progress nd_step).

Ltac num_simpl := cbn [add sub mul div Num_R Num_complex].

Lemma fringe_flux_scalar (x lam bandpass F_0 vis coh_phase disp_phase offset : R) :
  fringe_functions.fringe_flux (np.Scalar x) (np.Scalar lam) (np.Scalar bandpass)
    (np.Scalar F_0) (np.Scalar vis) (np.Scalar coh_phase)
    (np.Scalar disp_phase) (np.Scalar offset)
  = Ok (np.Scalar (formulas.intensity x lam bandpass F_0 vis coh_phase disp_phase offset)).
Proof. reflexivity. Qed.

Lemma fringe_flux_channels (x bandpass F_0 vis coh_phase disp_phase offset : R)
      (lams : list R) :
  fringe_functions.fringe_flux (np.Scalar x) (np.Array lams) (np.Scalar bandpass)
    (np.Scalar F_0) (np.Scalar vis) (np.Scalar coh_phase)
    (np.Scalar disp_phase) (np.Scalar offset)
  = Ok (np.Array (map (fun lam =>
          formulas.intensity x lam bandpass F_0 vis coh_phase disp_phase offset) lams)).
Proof.
  unfold fringe_functions.fringe_flux. nd_eval. reflexivity.
Qed.

(** ** Dispersion *)

Lemma sellmeier_scalar (lam : R) :
  fringe_functions.sellmeier_equation (np.Scalar lam)
  = Ok (np.Scalar (formulas.n_phase lam)).
Proof. reflexivity. Qed.

Lemma sellmeier_channels (lams : list R) :
  fringe_functions.sellmeier_equation (np.Array lams)
  = Ok (np.Array (map formulas.n_phase lams)).
Proof.
  unfold fringe_functions.sellmeier_equation. nd_eval. reflexivity.
Qed.

Lemma calc_group_index_scalar (lam : R) :
  fringe_functions.calc_group_index (np.Scalar lam)
  = Ok (np.Scalar (formulas.n_group lam)).
Proof. reflexivity. Qed.


Lemma phaseshift_glass_channels (lams : list R) (length lam_0 : R) :
  fringe_functions.phaseshift_glass (np.Array lams) (np.Scalar length)
    (np.Scalar lam_0)
  = Ok (np.Array (map (fun lam =>
          formulas.glass_dispersion_phase lam length lam_0) lams)).
Proof.
  unfold fringe_functions.phaseshift_glass.
  rewrite sellmeier_channels, calc_group_index_scalar. nd_eval.
  do 2 f_equal. apply map_ext; intro lam.
  unfold formulas.glass_dispersion_phase, np.pi. num_simpl.
  unfold Rdiv. ring.
Qed.







(** ** The dispersion phase at the reference wavelength *)

Lemma pow2_gt_0 (x : R) : x <> 0 -> 0 < x ^ 2.
Proof. intro H. rewrite <- Rsqr_pow2. now apply Rlt_0_sqr. Qed.

Lemma sellmeier_pair (B C lam : R) :
  0 < B -> C <> 0 -> C ^ 2 <> lam ^ 2 ->
  0 < B * lam ^ 2 / (C ^ 2 - lam ^ 2) ^ 2 + B / (C ^ 2 - lam ^ 2).
Proof.
  intros HB HC HD.
  assert (HD' : C ^ 2 - lam ^ 2 <> 0) by lra.
  replace (B * lam ^ 2 / (C ^ 2 - lam ^ 2) ^ 2 + B / (C ^ 2 - lam ^ 2))
    with (B * C ^ 2 / (C ^ 2 - lam ^ 2) ^ 2) by (field; exact HD').
  apply Rdiv_lt_0_compat.
  - apply Rmult_lt_0_compat; [exact HB | ].
    apply pow2_gt_0; exact HC.
  - apply pow2_gt_0; exact HD'.
Qed.

Lemma index_gap (lam : R) :
  lam <> 0 -> 0 < formulas.sellmeier_n2 lam ->
  fringe_functions.C1 ^ 2 <> lam ^ 2 ->
  fringe_functions.C2 ^ 2 <> lam ^ 2 ->
  fringe_functions.C3 ^ 2 <> lam ^ 2 ->
  0 < formulas.n_phase lam - formulas.n_group lam.
Proof.
  intros Hlam Hn2 H1 H2 H3.
  unfold formulas.n_group.
  assert (Hn : 0 < formulas.n_phase lam) by (apply sqrt_lt_R0; exact Hn2).
  pose proof (sellmeier_pair fringe_functions.B1 fringe_functions.C1 lam) as P1.
  pose proof (sellmeier_pair fringe_functions.B2 fringe_functions.C2 lam) as P2.
  pose proof (sellmeier_pair fringe_functions.B3 fringe_functions.C3 lam) as P3.
  assert (Q1 := P1 ltac:(unfold fringe_functions.B1; lra)
                   ltac:(unfold fringe_functions.C1; lra) H1).
  assert (Q2 := P2 ltac:(unfold fringe_functions.B2; lra)
                   ltac:(unfold fringe_functions.C2; lra) H2).
  assert (Q3 := P3 ltac:(unfold fringe_functions.B3; lra)
                   ltac:(unfold fringe_functions.C3; lra) H3).
  match goal with
  | |- 0 < ?n - (?n - ?t / ?n) => replace (n - (n - t / n)) with (t / n) by ring
  end.
  apply Rdiv_lt_0_compat; [ | exact Hn].
  apply Rmult_lt_0_compat; [apply pow2_gt_0; exact Hlam | lra].
Qed.




(** ** Chi-squared of the AC path *)

Lemma sum_list_ge (xs : list R) (acc : R) :
  Forall (fun x => 0 <= x) xs -> acc <= fold_left Rplus xs acc.
Proof.
  revert acc; induction xs as [|x xs IH]; intros acc H; simpl; [lra | ].
  inversion H as [|? ? Hx Hxs]; subst.
  specialize (IH (acc + x) Hxs). lra.
Qed.


Lemma calc_chi_2_AC_indexed {I : Type} (g w : I -> R) (l : list I)
      (delay length lam_0 : R) :
  fringe_functions.calc_chi_2_AC (np.Array (map g l)) delay
    (np.Array (map w l)) length lam_0
  = Ok (np.sum_list 0
          (map (fun i => (formulas.ac_model delay length lam_0 (w i) - g i) ^ 2)
             l)).
Proof.
  unfold fringe_functions.calc_chi_2_AC.
  rewrite phaseshift_glass_channels. nd_eval.
  cbn [np.sum bind]. reflexivity.
Qed.

Lemma calc_chi_2_AC_channels (gs lams : list R) (delay length lam_0 : R) :
  List.length lams = List.length gs ->
  fringe_functions.calc_chi_2_AC (np.Array gs) delay (np.Array lams) length lam_0
  = Ok (np.sum_list 0
          (np.zip_with
             (fun lam g => (formulas.ac_model delay length lam_0 lam - g) ^ 2)
             lams gs)).
Proof.
  intro Hlen.
  pose proof (calc_chi_2_AC_indexed snd fst (combine lams gs)
                delay length lam_0) as H.
  rewrite (combine_fst lams gs Hlen), (combine_snd lams gs Hlen) in H.
  rewrite H, zip_with_combine. reflexivity.
Qed.




(** ** The scan of [find_delay_AC] *)

Section ScanFacts.

Variable chi : R -> result R.

Lemma scan_all_evaluated (tds : list R) (st st' : R * option R) :
  fringe_functions.for_each tds (scan_body chi) st = Ok st' ->
  forall d, In d tds -> exists c, chi d = Ok c.
Proof.
  revert st; induction tds as [|x tds IH]; intros [m dm] H d Hd.
  - destruct Hd.
  - cbn [fringe_functions.for_each scan_body] in H.
    destruct (chi x) as [c|e] eqn:Hx; cbn [bind] in H; [ | discriminate].
    destruct Hd as [<- | Hd]; [now exists c | ].
    destruct (Rlt_dec c m); cbn [bind] in H; eapply IH; eauto.
Qed.

Lemma scan_spec (tds : list R) (m : R) (dm : option R) (m' : R) (dm' : option R) :
  fringe_functions.for_each tds (scan_body chi) (m, dm) = Ok (m', dm') ->
  scanned chi tds m dm m' dm'.
Proof.
  revert m dm; induction tds as [|x tds IH]; intros m dm H.
  - cbn in H. inversion H; subst. apply scanned_none. intros d c [].
  - cbn [fringe_functions.for_each scan_body] in H.
    destruct (chi x) as [c|e] eqn:Hx; cbn [bind] in H; [ | discriminate].
    destruct (Rlt_dec c m) as [Hlt|Hge]; cbn [bind] in H;
      apply IH in H; inversion H as [Hall | i d c0 Hi Hd Hc Hmin]; subst.
    + (* adopted here, never again *)
      apply (scanned_at _ _ _ _ 0%nat x m'); auto.
      intros [|j] d' c' Hj Hd'; cbn in Hj.
      * inversion Hj; subst. rewrite Hx in Hd'. inversion Hd'; subst.
        split; [lra | lia].
      * split; [ | lia]. apply (Hall d' c'); auto.
        eapply nth_error_In; eauto.
    + (* adopted here, then a smaller value later *)
      apply (scanned_at _ _ _ _ (S i) d m'); auto; [lra | ].
      intros [|j] d' c' Hj Hd'; cbn in Hj.
      * inversion Hj; subst. rewrite Hx in Hd'. inversion Hd'; subst.
        split; [lra | intros _; lra].
      * destruct (Hmin j d' c' Hj Hd') as [Hle Hfirst].
        split; [exact Hle | intro; apply Hfirst; lia].
    + (* not adopted here, nor later *)
      apply scanned_none. intros d c0 [<- | Hd] Hc.
      * rewrite Hx in Hc. inversion Hc; subst. lra.
      * eapply Hall; eauto.
    + (* not adopted here, adopted later *)
      apply (scanned_at _ _ _ _ (S i) d m'); auto.
      intros [|j] d' c' Hj Hd'; cbn in Hj.
      * inversion Hj; subst. rewrite Hx in Hd'. inversion Hd'; subst.
        split; [lra | intros _; lra].
      * destruct (Hmin j d' c' Hj Hd') as [Hle Hfirst].
        split; [exact Hle | intro; apply Hfirst; lia].
Qed.

(** The plotting loop runs the same scan and collects the values. *)
Lemma scan_plot_same (tds : list R) (m : R) (dm : option R) (arr : list R) :
  match fringe_functions.for_each tds (scan_body_plot chi) (m, dm, arr),
        fringe_functions.for_each tds (scan_body chi) (m, dm) with
  | Ok (m1, dm1, arr1), Ok (m2, dm2) =>
      m1 = m2 /\ dm1 = dm2
      /\ exists chis, arr1 = arr ++ chis
                      /\ Forall2 (fun d c => chi d = Ok c) tds chis
  | Raise e1, Raise e2 => e1 = e2
  | _, _ => False
  end.
Proof.
  revert m dm arr; induction tds as [|x tds IH]; intros m dm arr.
  - cbn. repeat split. exists []. split; [now rewrite app_nil_r | constructor].
  - cbn [fringe_functions.for_each scan_body scan_body_plot].
    destruct (chi x) as [c|e] eqn:Hx; cbn [bind]; [ | reflexivity].
    destruct (Rlt_dec c m); cbn [bind].
    + specialize (IH c (Some x) (arr ++ [c])).
      destruct (fringe_functions.for_each tds (scan_body_plot chi) _) as [[[m1 dm1] arr1]|e1];
        destruct (fringe_functions.for_each tds (scan_body chi) _) as [[m2 dm2]|e2];
        auto.
      destruct IH as [Hm [Hd [chis [Harr HF]]]].
      repeat split; auto. exists (c :: chis). split.
      * now rewrite Harr, <- app_assoc.
      * now constructor.
    + specialize (IH m dm (arr ++ [c])).
      destruct (fringe_functions.for_each tds (scan_body_plot chi) _) as [[[m1 dm1] arr1]|e1];
        destruct (fringe_functions.for_each tds (scan_body chi) _) as [[m2 dm2]|e2];
        auto.
      destruct IH as [Hm [Hd [chis [Harr HF]]]].
      repeat split; auto. exists (c :: chis). split.
      * now rewrite Harr, <- app_assoc.
      * now constructor.
Qed.

Lemma scan_total (tds : list R) (st : R * option R) :
  (forall d, In d tds -> exists c, chi d = Ok c) ->
  exists st', fringe_functions.for_each tds (scan_body chi) st = Ok st'.
Proof.
  revert st; induction tds as [|x tds IH]; intros [m dm] Hev.
  - eexists. reflexivity.
  - cbn [fringe_functions.for_each scan_body].
    destruct (Hev x (or_introl eq_refl)) as [c Hc]. rewrite Hc. cbn [bind].
    destruct (Rlt_dec c m); cbn [bind]; apply IH; intros d Hd; apply Hev;
      now right.
Qed.

End ScanFacts.

Lemma find_delay_AC_noplot (gamma_r : nd) (tds : list R) (wavelengths : nd)
      (length lam_0 : R) :
  fringe_functions.find_delay_AC gamma_r tds wavelengths length lam_0 false
  = match fringe_functions.for_each tds
            (scan_body (fun d => fringe_functions.calc_chi_2_AC gamma_r d
                                   wavelengths length lam_0))
            (1e10, None) with
    | Raise e => (Raise e, [])
    | Ok (_, delay_min) => (fringe_functions.local delay_min, [])
    end.
Proof. reflexivity. Qed.

Lemma find_delay_AC_plot (gamma_r : nd) (tds : list R) (wavelengths : nd)
      (length lam_0 : R) :
  fringe_functions.find_delay_AC gamma_r tds wavelengths length lam_0 true
  = match fringe_functions.for_each tds
            (scan_body_plot (fun d => fringe_functions.calc_chi_2_AC gamma_r d
                                        wavelengths length lam_0))
            (1e10, None, []) with
    | Raise e => (Raise e, [])
    | Ok (_, delay_min, chi_2_plot_array) =>
        (fringe_functions.local delay_min, [(tds, chi_2_plot_array)])
    end.
Proof. reflexivity. Qed.

Lemma find_delay_AC_estimate_eq (gamma_r : nd) (tds : list R) (wavelengths : nd)
      (length lam_0 : R) :
  fst (fringe_functions.find_delay_AC gamma_r tds wavelengths length lam_0 true)
  = fst (fringe_functions.find_delay_AC gamma_r tds wavelengths length lam_0 false).
Proof.
  rewrite find_delay_AC_plot, find_delay_AC_noplot.
  pose proof (scan_plot_same
                (fun d => fringe_functions.calc_chi_2_AC gamma_r d wavelengths
                            length lam_0) tds 1e10 None []) as H.
  destruct (fringe_functions.for_each tds (scan_body_plot _) _)
    as [[[m1 dm1] arr1]|e1];
    destruct (fringe_functions.for_each tds (scan_body _) _) as [[m2 dm2]|e2];
    try contradiction.
  - destruct H as [_ [-> _]]. reflexivity.
  - subst. reflexivity.
Qed.

(** The scan returns exactly when some chi-squared is below the bound 1e10
    the minimum starts from. *)
Lemma find_delay_AC_returns (gamma_r : nd) (tds : list R) (wavelengths : nd)
      (length lam_0 : R) (plot : bool) :
  (forall d, In d tds ->
     exists c, fringe_functions.calc_chi_2_AC gamma_r d wavelengths length lam_0
               = Ok c) ->
  (exists d c, In d tds
               /\ fringe_functions.calc_chi_2_AC gamma_r d wavelengths length
                    lam_0 = Ok c
               /\ c < 1e10) ->
  exists d,
    fst (fringe_functions.find_delay_AC gamma_r tds wavelengths length lam_0 plot)
    = Ok d.
Proof.
  intros Hev [d [c [Hd [Hc Hlt]]]].
  assert (H : exists d0,
             fst (fringe_functions.find_delay_AC gamma_r tds wavelengths length
                    lam_0 false) = Ok d0).
  { rewrite find_delay_AC_noplot.
    destruct (scan_total _ tds (1e10, None) Hev) as [[m' dm'] Hloop].
    rewrite Hloop. apply scan_spec in Hloop.
    inversion Hloop as [Hall | i d0 c0 Hi Hd0 Hc0 Hmin]; subst.
    - specialize (Hall d c Hd Hc). lra.
    - exists d0. reflexivity. }
  destruct plot; [rewrite find_delay_AC_estimate_eq | ]; exact H.
Qed.

Lemma find_delay_AC_raises (gamma_r : nd) (tds : list R) (wavelengths : nd)
      (length lam_0 : R) (plot : bool) :
  (forall d, In d tds ->
     exists c, fringe_functions.calc_chi_2_AC gamma_r d wavelengths length lam_0
               = Ok c
               /\ 1e10 <= c) ->
  fst (fringe_functions.find_delay_AC gamma_r tds wavelengths length lam_0 plot)
  = Raise UnboundLocalError.
Proof.
  intro Hev.
  assert (H : fst (fringe_functions.find_delay_AC gamma_r tds wavelengths length
                     lam_0 false) = Raise UnboundLocalError).
  { rewrite find_delay_AC_noplot.
    destruct (scan_total (fun d => fringe_functions.calc_chi_2_AC gamma_r d
                                     wavelengths length lam_0)
                tds (1e10, None)) as [[m' dm'] Hloop].
    { intros d Hd. destruct (Hev d Hd) as [c [Hc _]]. now exists c. }
    rewrite Hloop. apply scan_spec in Hloop.
    inversion Hloop as [Hall | i d0 c0 Hi Hd0 Hc0 Hmin]; subst.
    - reflexivity.
    - destruct (Hev d0 (nth_error_In _ _ Hi)) as [c [Hc Hge]].
      rewrite Hd0 in Hc. inversion Hc; subst. lra. }
  destruct plot; [rewrite find_delay_AC_estimate_eq | ]; exact H.
Qed.

(** C5.  When [find_delay_AC] returns on a non-empty trial-delay sequence,
    the returned delay is a trial delay whose chi-squared is the least of the
    scan, and it stands at the first position where that least value occurs:
    every earlier trial delay has a strictly larger chi-squared, so a later
    trial delay with an equal chi-squared is not adopted. *)
Theorem find_delay_AC_first_minimum
        (gamma_r : nd) (tds : list R) (wavelengths : nd) (length lam_0 : R)
        (plot : bool) (d : R) :
  tds <> [] ->
  fst (fringe_functions.find_delay_AC gamma_r tds wavelengths length lam_0 plot)
  = Ok d ->
  exists i c,
    nth_error tds i = Some d
    /\ fringe_functions.calc_chi_2_AC gamma_r d wavelengths length lam_0 = Ok c
    /\ forall j d',
        nth_error tds j = Some d' ->
        exists c',
          fringe_functions.calc_chi_2_AC gamma_r d' wavelengths length lam_0
          = Ok c'
          /\ c <= c'
          /\ ((j < i)%nat -> c < c').
Proof.
  intros _ H.
  assert (H' : fst (fringe_functions.find_delay_AC gamma_r tds wavelengths
                      length lam_0 false) = Ok d).
  { destruct plot; [rewrite <- find_delay_AC_estimate_eq | ]; exact H. }
  clear H. rewrite find_delay_AC_noplot in H'.
  set (chi := fun d => fringe_functions.calc_chi_2_AC gamma_r d wavelengths
                         length lam_0) in *.
  destruct (fringe_functions.for_each tds (scan_body chi) (1e10, None))
    as [[m' dm']|e] eqn:Hloop; cbn in H'; [ | discriminate].
  pose proof (scan_all_evaluated chi tds _ _ Hloop) as Hev.
  apply scan_spec in Hloop.
  inversion Hloop as [Hall | i d0 c Hi Hd Hc Hmin]; subst; cbn in H';
    [discriminate | ].
  inversion H'; subst d0.
  exists i, m'. repeat split; auto.
  intros j d' Hj.
  destruct (Hev d' (nth_error_In _ _ Hj)) as [c' Hc'].
  exists c'. split; [exact Hc' | ]. apply (Hmin j d' c' Hj Hc').
Qed.

(** C9.  [find_delay_AC] gives the same estimate (or raises the same
    exception) with [plot=True] and with [plot=False]; without plotting no
    curve is shown, with plotting the one curve shown is the chi-squared of
    every trial delay against the trial delays. *)
Theorem find_delay_AC_plot_irrelevant
        (gamma_r : nd) (tds : list R) (wavelengths : nd) (length lam_0 : R) :
  fst (fringe_functions.find_delay_AC gamma_r tds wavelengths length lam_0 true)
  = fst (fringe_functions.find_delay_AC gamma_r tds wavelengths length lam_0 false)
  /\ snd (fringe_functions.find_delay_AC gamma_r tds wavelengths length lam_0 false)
     = []
  /\ (snd (fringe_functions.find_delay_AC gamma_r tds wavelengths length lam_0 true)
      = []
      \/ exists chis,
          snd (fringe_functions.find_delay_AC gamma_r tds wavelengths length
                 lam_0 true) = [(tds, chis)]
          /\ Forall2 (fun d c =>
               fringe_functions.calc_chi_2_AC gamma_r d wavelengths length lam_0
               = Ok c) tds chis).
Proof.
  split; [apply find_delay_AC_estimate_eq | ]. split.
  - rewrite find_delay_AC_noplot.
    destruct (fringe_functions.for_each tds _ _) as [[m dm]|e]; reflexivity.
  - rewrite find_delay_AC_plot.
    pose proof (scan_plot_same
                  (fun d => fringe_functions.calc_chi_2_AC gamma_r d wavelengths
                              length lam_0) tds 1e10 None []) as H.
    destruct (fringe_functions.for_each tds (scan_body_plot _) _)
      as [[[m1 dm1] arr1]|e1]; [ | now left].
    destruct (fringe_functions.for_each tds (scan_body _) _) as [[m2 dm2]|e2];
      [ | contradiction].
    destruct H as [_ [_ [chis [-> HF]]]].
    right. exists chis. split; [reflexivity | exact HF].
Qed.

(** C1.  [find_delay_AC] on a non-empty trial-delay sequence can fail to
    return: with a coherence of 1e6 in one channel every chi-squared is at
    least 1e10, [delay_min] is never assigned and reading it raises
    UnboundLocalError, with or without plotting. *)
Theorem find_delay_AC_unbound (plot : bool) :
  fst (fringe_functions.find_delay_AC (np.Array [1e6]) [0] (np.Array [600e-9])
         5e-2 675e-9 plot)
  = Raise UnboundLocalError.
Proof.
  apply find_delay_AC_raises. intros d _.
  rewrite calc_chi_2_AC_channels by reflexivity.
  cbn [np.zip_with np.sum_list fold_left add Num_R].
  eexists. split; [reflexivity | ].
  set (m := formulas.ac_model d 5e-2 675e-9 600e-9).
  assert (Hm : -1 <= m <= 1) by apply COS_bound.
  nra.
Qed.

(** Two trial delays one wavelength apart give the same chi-squared; the
    scan keeps the first. *)
Lemma find_delay_AC_tie :
  fst (fringe_functions.find_delay_AC (np.Array [1]) [0; 600e-9]
         (np.Array [600e-9]) 5e-2 675e-9 false)
  = Ok 0.
Proof.
  assert (Hsame : formulas.ac_model 600e-9 5e-2 675e-9 600e-9
                  = formulas.ac_model 0 5e-2 675e-9 600e-9).
  { unfold formulas.ac_model.
    replace (2 * PI * 600e-9 / 600e-9) with (2 * PI) by lra.
    replace (2 * PI * 0 / 600e-9) with 0 by lra.
    rewrite !cos_minus, cos_2PI, sin_2PI, cos_0, sin_0. ring. }
  set (m := formulas.ac_model 0 5e-2 675e-9 600e-9) in *.
  assert (Hm : -1 <= m <= 1) by apply COS_bound.
  rewrite find_delay_AC_noplot.
  cbn [fringe_functions.for_each scan_body].
  rewrite calc_chi_2_AC_channels by reflexivity.
  cbn [np.zip_with np.sum_list fold_left add Num_R bind]. fold m.
  destruct (Rlt_dec (0 + (m - 1) ^ 2) 1e10) as [_|Hge]; [ | exfalso; nra].
  cbn [bind scan_body].
  rewrite calc_chi_2_AC_channels by reflexivity.
  cbn [np.zip_with np.sum_list fold_left add Num_R bind].
  rewrite Hsame.
  destruct (Rlt_dec (0 + (m - 1) ^ 2) (0 + (m - 1) ^ 2)) as [Hlt|_];
    [exfalso; lra | reflexivity].
Qed.

Lemma find_delay_AC_first_minimum_witness :
  exists i c,
    nth_error [0; 600e-9] i = Some 0
    /\ fringe_functions.calc_chi_2_AC (np.Array [1]) 0 (np.Array [600e-9])
         5e-2 675e-9 = Ok c
    /\ forall j d',
        nth_error [0; 600e-9] j = Some d' ->
        exists c',
          fringe_functions.calc_chi_2_AC (np.Array [1]) d' (np.Array [600e-9])
            5e-2 675e-9 = Ok c'
          /\ c <= c'
          /\ ((j < i)%nat -> c < c').
Proof.
  apply (find_delay_AC_first_minimum (np.Array [1]) [0; 600e-9]
           (np.Array [600e-9]) 5e-2 675e-9 false 0).
  - discriminate.
  - exact find_delay_AC_tie.
Defined.

(** ** The peak search *)

Lemma argmax_from_spec (xs pre : list R) (best : R) (best_i : nat) :
  nth_error pre best_i = Some best ->
  (forall j e', nth_error pre j = Some e' ->
                e' <= best /\ ((j < best_i)%nat -> e' < best)) ->
  first_max (pre ++ xs) (np.argmax_from xs (length pre) best best_i).
Proof.
  revert pre best best_i; induction xs as [|x xs IH]; intros pre best best_i Hb Hinv.
  - cbn. rewrite app_nil_r. exists best. split; assumption.
  - assert (Hlt : (best_i < length pre)%nat)
      by (apply nth_error_Some; rewrite Hb; discriminate).
    cbn [np.argmax_from].
    replace (pre ++ x :: xs) with ((pre ++ [x]) ++ xs)
      by (rewrite <- app_assoc; reflexivity).
    replace (S (length pre)) with (length (pre ++ [x]))
      by (rewrite length_app; cbn; lia).
    destruct (Rlt_dec best x) as [Hbx|Hbx]; apply IH.
    + rewrite nth_error_app2 by lia. now rewrite Nat.sub_diag.
    + intros j e' Hj.
      destruct (Nat.lt_ge_cases j (length pre)) as [Hjl|Hjl].
      * rewrite nth_error_app1 in Hj by exact Hjl.
        destruct (Hinv j e' Hj) as [Hle _]. split; [lra | intros _; lra].
      * rewrite nth_error_app2 in Hj by exact Hjl.
        destruct (j - length pre)%nat as [|k] eqn:Hk; cbn in Hj;
          [ | destruct k; discriminate].
        inversion Hj; subst. split; [lra | lia].
    + rewrite nth_error_app1 by exact Hlt. exact Hb.
    + intros j e' Hj.
      destruct (Nat.lt_ge_cases j (length pre)) as [Hjl|Hjl].
      * rewrite nth_error_app1 in Hj by exact Hjl. now apply Hinv.
      * rewrite nth_error_app2 in Hj by exact Hjl.
        destruct (j - length pre)%nat as [|k] eqn:Hk; cbn in Hj;
          [ | destruct k; discriminate].
        inversion Hj; subst. split; [lra | lia].
Qed.

Lemma argmax_spec (env : list R) :
  env <> [] -> exists r, np.argmax (np.Array env) = Ok r /\ first_max env r.
Proof.
  destruct env as [|x xs]; [now intros [] | intros _].
  exists (np.argmax_from xs 1 x 0). split; [reflexivity | ].
  apply (argmax_from_spec xs [x] x 0%nat); [reflexivity | ].
  intros [|[|j]] e' Hj; cbn in Hj; try discriminate.
  inversion Hj; subst. split; [lra | lia].
Qed.

Lemma find_delay_spec (env tds : list R) :
  env <> [] -> length tds = length env ->
  exists i d,
    fringe_functions.find_delay (np.Array env) tds = Ok d
    /\ nth_error tds i = Some d
    /\ first_max env i.
Proof.
  intros Hne Hlen.
  destruct (argmax_spec env Hne) as [r [Hr Hmax]].
  assert (Hlt : (r < length tds)%nat).
  { destruct Hmax as [e [He _]]. rewrite Hlen.
    apply nth_error_Some. rewrite He. discriminate. }
  destruct (nth_error tds r) as [d|] eqn:Hd;
    [ | apply nth_error_None in Hd; lia].
  exists r, d. unfold fringe_functions.find_delay.
  rewrite Hr. cbn [bind]. unfold np.getitem. rewrite Hd. auto.
Qed.

(** C6.  On a non-empty delay envelope and a trial-delay sequence of the same
    length, [find_delay] returns the trial delay at the index of the maximum
    of the envelope, the first index that attains it: every entry is at most
    the entry there, and every earlier entry is strictly smaller. *)
Theorem find_delay_first_maximum (env tds : list R) :
  env <> [] -> length tds = length env ->
  exists i d e,
    fringe_functions.find_delay (np.Array env) tds = Ok d
    /\ nth_error tds i = Some d
    /\ nth_error env i = Some e
    /\ forall j e', nth_error env j = Some e' ->
                    e' <= e /\ ((j < i)%nat -> e' < e).
Proof.
  intros Hne Hlen.
  destruct (find_delay_spec env tds Hne Hlen) as [i [d [Hd [Hi [e [He Hmax]]]]]].
  exists i, d, e. auto.
Qed.

Lemma find_delay_first_maximum_witness :
  exists i d e,
    fringe_functions.find_delay (np.Array [1; 3; 2; 3]) [10; 20; 30; 40] = Ok d
    /\ nth_error [10; 20; 30; 40] i = Some d
    /\ nth_error [1; 3; 2; 3] i = Some e
    /\ forall j e', nth_error [1; 3; 2; 3] j = Some e' ->
                    e' <= e /\ ((j < i)%nat -> e' < e).
Proof.
  apply (find_delay_first_maximum [1; 3; 2; 3] [10; 20; 30; 40]).
  - discriminate.
  - reflexivity.
Defined.

(** ** The examples *)

Lemma example_wavelengths_nonzero : nonzero [607.5e-9; 622.5e-9].
Proof. repeat constructor; lra. Qed.

Lemma example_wavelengths_in_band : Forall in_band [607.5e-9; 622.5e-9].
Proof. repeat constructor; unfold fringe_functions.C1; lra. Qed.

Lemma example_reference_in_band : in_band 675e-9.
Proof. unfold in_band, fringe_functions.C1. lra. Qed.


(** ** The sum of the outputs *)

Lemma cos_third (psi : R) :
  cos (psi - 2 * PI / 3) = - (1 / 2) * cos psi + sqrt 3 / 2 * sin psi.
Proof.
  replace (2 * PI / 3) with (2 * (PI / 3)) by field.
  rewrite cos_minus, cos_2PI3, sin_2PI3. field.
Qed.

Lemma sin_third (psi : R) :
  sin (psi - 2 * PI / 3) = - (1 / 2) * sin psi - sqrt 3 / 2 * cos psi.
Proof.
  replace (2 * PI / 3) with (2 * (PI / 3)) by field.
  rewrite sin_minus, cos_2PI3, sin_2PI3. field.
Qed.

Lemma cos_two_thirds (psi : R) :
  cos (psi - 4 * PI / 3) = - (1 / 2) * cos psi - sqrt 3 / 2 * sin psi.
Proof.
  replace (4 * PI / 3) with (PI / 3 + PI) by field.
  rewrite cos_minus, neg_cos, neg_sin, cos_PI3, sin_PI3. field.
Qed.

Lemma cos_half_turn (psi : R) : cos (psi - PI) = - cos psi.
Proof. rewrite cos_minus, cos_PI, sin_PI. ring. Qed.

Lemma tricoupler_fluxes_sum (x lam bp F_0 vis phi phi_d : R) :
  formulas.intensity x lam bp F_0 vis phi phi_d 0
  + formulas.intensity x lam bp F_0 vis phi phi_d (2 * PI / 3)
  + formulas.intensity x lam bp F_0 vis phi phi_d (4 * PI / 3)
  = 3 * F_0.
Proof.
  unfold formulas.intensity.
  set (psi := 2 * PI * x / lam - phi - phi_d).
  replace (psi - 0) with psi by lra.
  rewrite cos_third, cos_two_thirds. clearbody psi. field.
Qed.

Lemma ac_fluxes_sum (x lam bp F_0 vis phi phi_d : R) :
  formulas.intensity x lam bp F_0 vis phi phi_d 0
  + formulas.intensity x lam bp F_0 vis phi phi_d PI
  = 2 * F_0.
Proof.
  unfold formulas.intensity.
  set (psi := 2 * PI * x / lam - phi - phi_d).
  replace (psi - 0) with psi by lra.
  rewrite cos_half_turn. clearbody psi. ring.
Qed.

(** ** The means of the Poisson draws *)

Lemma sin_abs_le (x : R) : Rabs (sin x) <= Rabs x.
Proof.
  assert (Hpos : forall y, 0 < y -> - y <= sin y <= y).
  { intros y Hy. split; [ | left; now apply sin_lt_x].
    destruct (Rle_dec y PI) as [Hle|Hgt].
    - pose proof (sin_ge_0 y ltac:(lra) Hle). lra.
    - pose proof (SIN_bound y). pose proof PI_RGT_0.
      pose proof PI2_3_2. unfold PI2 in *. 
      assert (1 < PI) by (pose proof PI_4; lra). lra. }
  destruct (Rtotal_order x 0) as [Hneg | [-> | Hp]].
  - destruct (Hpos (- x) ltac:(lra)) as [H1 H2]. rewrite sin_neg in *.
    rewrite (Rabs_left x Hneg). apply Rabs_le. lra.
  - rewrite sin_0, Rabs_R0. lra.
  - destruct (Hpos x Hp). rewrite (Rabs_right x) by lra. apply Rabs_le. lra.
Qed.

Lemma sinc1_bound (u : R) : -1 <= np.sinc1 u <= 1.
Proof.
  unfold np.sinc1. destruct (Req_dec_T u 0) as [_|Hu]; [lra | ].
  pose proof PI_RGT_0 as Hpi.
  assert (Hy : PI * u <> 0) by (apply Rmult_integral_contrapositive_currified; lra).
  pose proof (sin_abs_le (PI * u)) as H.
  assert (Hq : Rabs (sin (PI * u) / (PI * u)) <= 1).
  { unfold Rdiv. rewrite Rabs_mult, Rabs_inv.
    apply Rmult_le_reg_r with (Rabs (PI * u)); [now apply Rabs_pos_lt | ].
    rewrite Rmult_assoc, Rinv_l by (now apply Rabs_no_R0). lra. }
  revert Hq. unfold Rabs at 1. destruct (Rcase_abs _); lra.
Qed.







(** ** Rounding *)




(** ** The combiner simulators *)

Lemma poisson_list_shift (f : nat -> R) (s : np.RandomState) (p a n : nat) :
  np.poisson_list (map f (seq a n)) (p + a) s
  = map (fun k => np.rs_poisson s (p + k) (f k)) (seq a n).
Proof.
  revert a; induction n as [|n IH]; intro a; cbn; [reflexivity | ].
  f_equal. rewrite <- IH. f_equal. lia.
Qed.

Lemma poisson_list_seq (f : nat -> R) (s : np.RandomState) (p n : nat) :
  np.poisson_list (map f (seq 0 n)) p s
  = map (fun k => np.rs_poisson s (p + k) (f k)) (seq 0 n).
Proof. rewrite <- poisson_list_shift. f_equal. lia. Qed.

Lemma zeros_seq (n : nat) : np.zeros n = map (fun _ => 0) (seq 0 n).
Proof.
  unfold np.zeros. generalize 0%nat.
  induction n as [|n IH]; intro a; cbn; [reflexivity | now rewrite <- IH].
Qed.

Lemma zeros_length (n : nat) : length (np.zeros n) = n.
Proof. apply repeat_length. Qed.

Lemma setrow_array (a : list (list R)) (i : nat) (row xs : list R) :
  nth_error a i = Some row -> length xs = length row ->
  np.setrow a i (np.Array xs) = Ok (np.set_nth a i xs).
Proof.
  intros Hrow Hlen. unfold np.setrow. rewrite Hrow, Hlen, Nat.eqb_refl.
  reflexivity.
Qed.

Lemma list_as_map_seq (xs : list R) :
  xs = map (fun k => nth k xs 0) (seq 0 (length xs)).
Proof.
  induction xs as [|x xs IH]; cbn; [reflexivity | ].
  f_equal. rewrite <- seq_shift, map_map. exact IH.
Qed.

Lemma advance_advance (a b : nat) (s : np.RandomState) :
  np.advance b (np.advance a s) = np.advance (a + b) s.
Proof. unfold np.advance. cbn. f_equal. lia. Qed.

(** One output fibre: [n] Poisson draws, one normal draw added to every
    channel, rounding, and the store into row [i]. *)
Lemma noisy_row (fl : nat -> R) (n : nat) (fluxes : list (list R)) (i : nat)
      (s : np.RandomState) (row : list R) :
  nth_error fluxes i = Some row -> length row = n ->
  (r <- np.poisson (np.Array (map fl (seq 0 n))) s ;;
   let '(shot_noise, s0) := r in
   let '(read_noise, s1) := np.normal 1.6 s0 in
   v <- np.round (np.ufunc2 add (val shot_noise) (lit read_noise)) ;;
   fluxes0 <- np.setrow fluxes i v ;;
   Ok (fluxes0, (i + 1)%nat, s1))
  = if existsb np.negative (map fl (seq 0 n)) then Raise ValueError
    else Ok (np.set_nth fluxes i
               (map (fun k => np.round1
                       (np.rs_poisson s (np.rs_pos s + k) (fl k)
                        + (0 + 1.6 * np.rs_normal s (np.rs_pos s + n))))
                  (seq 0 n)),
             (i + 1)%nat, np.advance (n + 1) s).
Proof.
  intros Hrow Hlen.
  cbn [np.poisson].
  destruct (existsb np.negative (map fl (seq 0 n))); [reflexivity | ].
  cbn [bind np.normal]. nd_eval.
  rewrite poisson_list_seq, map_map, length_seq.
  rewrite (setrow_array _ _ row)
    by (try assumption; now rewrite length_map, length_seq).
  cbn [bind]. rewrite advance_advance. reflexivity.
Qed.

Lemma coherence_of_gamma (F_A F_B F_C : R) :
  coherence_of F_A F_B F_C = formulas.tricoupler_gamma F_A F_B F_C.
Proof.
  unfold coherence_of, formulas.tricoupler_gamma.
  now replace (0 + F_A + F_B + F_C) with (F_A + F_B + F_C) by ring.
Qed.

Lemma cal_coherence_cases (n : nat) (w : nat -> R)
      (delay_bad delay_fix bandpass F_0 vis coh_phase : R) (s : np.RandomState) :
  let I k offset :=
    formulas.intensity (delay_bad - delay_fix) (w k) bandpass F_0 vis
      coh_phase 0 offset in
  fringe_functions.cal_coherence delay_bad delay_fix (map w (seq 0 n))
    (np.Scalar bandpass) (F_0, vis, coh_phase) s
  = if existsb np.negative (map (fun k => I k 0) (seq 0 n))
       || existsb np.negative (map (fun k => I k (2 * PI / 3)) (seq 0 n))
       || existsb np.negative (map (fun k => I k (4 * PI / 3)) (seq 0 n))
    then Raise ValueError
    else Ok (np.Array
               (map (fun k =>
                  formulas.tricoupler_gamma
                    (formulas.noisy_flux s n 0 k (I k 0))
                    (formulas.noisy_flux s n 1 k (I k (2 * PI / 3)))
                    (formulas.noisy_flux s n 2 k (I k (4 * PI / 3))))
                  (seq 0 n)),
             np.advance (3 * (n + 1)) s).
Proof.
  intro I. subst I. cbv beta.
  set (I := fun offset k =>
         formulas.intensity (delay_bad - delay_fix) (w k) bandpass F_0 vis
           coh_phase 0 offset).
  change (fringe_functions.cal_coherence delay_bad delay_fix (map w (seq 0 n))
            (np.Scalar bandpass) (F_0, vis, coh_phase) s
          = if existsb np.negative (map (I 0) (seq 0 n))
               || existsb np.negative (map (I (2 * PI / 3)) (seq 0 n))
               || existsb np.negative (map (I (4 * PI / 3)) (seq 0 n))
            then Raise ValueError
            else Ok (np.Array
                       (map (fun k =>
                          formulas.tricoupler_gamma
                            (formulas.noisy_flux s n 0 k (I 0 k))
                            (formulas.noisy_flux s n 1 k (I (2 * PI / 3) k))
                            (formulas.noisy_flux s n 2 k (I (4 * PI / 3) k)))
                          (seq 0 n)),
                     np.advance (3 * (n + 1)) s)).
  unfold fringe_functions.cal_coherence.
  rewrite !length_map, !length_seq.
  cbn [map fringe_functions.for_each].
  replace (2 * np.pi / 3 * 0) with 0 by (unfold np.pi; field).
  replace (2 * np.pi / 3 * 1) with (2 * PI / 3) by (unfold np.pi; field).
  replace (2 * np.pi / 3 * 2) with (4 * PI / 3) by (unfold np.pi; field).
  rewrite fringe_flux_channels, map_map. cbn [bind].
  change (fun x : nat =>
            formulas.intensity (delay_bad - delay_fix) (w x) bandpass F_0 vis
              coh_phase 0 0) with (I 0).
  rewrite (noisy_row _ n _ _ _ (np.zeros n))
    by (try reflexivity; apply zeros_length).
  destruct (existsb np.negative (map (I 0) (seq 0 n))); [reflexivity | ].
  cbn [bind orb].
  rewrite fringe_flux_channels, map_map. cbn [bind].
  change (fun x : nat =>
            formulas.intensity (delay_bad - delay_fix) (w x) bandpass F_0 vis
              coh_phase 0 (2 * PI / 3)) with (I (2 * PI / 3)).
  rewrite (noisy_row _ n _ _ _ (np.zeros n))
    by (try reflexivity; apply zeros_length).
  destruct (existsb np.negative (map (I (2 * PI / 3)) (seq 0 n)));
    [reflexivity | ].
  cbn [bind orb].
  rewrite fringe_flux_channels, map_map. cbn [bind].
  change (fun x : nat =>
            formulas.intensity (delay_bad - delay_fix) (w x) bandpass F_0 vis
              coh_phase 0 (4 * PI / 3)) with (I (4 * PI / 3)).
  rewrite (noisy_row _ n _ _ _ (np.zeros n))
    by (try reflexivity; apply zeros_length).
  destruct (existsb np.negative (map (I (4 * PI / 3)) (seq 0 n)));
    [reflexivity | ].
  cbn [bind np.zeros2 repeat np.set_nth Nat.add].
  rewrite !advance_advance.
  cbn [np.rs_pos np.rs_poisson np.rs_normal np.advance].
  unfold fringe_functions.row, np.getitem. cbn [nth_error bind].
  unfold np.sum_axis0. cbn [fold_left]. rewrite zeros_seq.
  nd_eval. num_simpl.
  f_equal. f_equal.
  - f_equal. apply map_ext. intro k.
    fold (coherence_of
      (np.round1
         (np.rs_poisson s (np.rs_pos s + k) (I 0 k)
          + (0 + 1.6 * np.rs_normal s (np.rs_pos s + n))))
      (np.round1
         (np.rs_poisson s (np.rs_pos s + (n + 1) + k) (I (2 * PI / 3) k)
          + (0 + 1.6 * np.rs_normal s (np.rs_pos s + (n + 1) + n))))
      (np.round1
         (np.rs_poisson s (np.rs_pos s + (n + 1 + (n + 1)) + k)
            (I (4 * PI / 3) k)
          + (0 + 1.6 * np.rs_normal s (np.rs_pos s + (n + 1 + (n + 1)) + n))))).
    rewrite coherence_of_gamma.
    unfold formulas.noisy_flux, formulas.pre_rounding, formulas.shot_noise,
      formulas.read_noise.
    replace (np.rs_pos s + 0 * (n + 1) + k)%nat with (np.rs_pos s + k)%nat by lia.
    replace (np.rs_pos s + 0 * (n + 1) + n)%nat with (np.rs_pos s + n)%nat by lia.
    replace (np.rs_pos s + 1 * (n + 1) + k)%nat
      with (np.rs_pos s + (n + 1) + k)%nat by lia.
    replace (np.rs_pos s + 1 * (n + 1) + n)%nat
      with (np.rs_pos s + (n + 1) + n)%nat by lia.
    replace (np.rs_pos s + 2 * (n + 1) + k)%nat
      with (np.rs_pos s + (n + 1 + (n + 1)) + k)%nat by lia.
    replace (np.rs_pos s + 2 * (n + 1) + n)%nat
      with (np.rs_pos s + (n + 1 + (n + 1)) + n)%nat by lia.
    reflexivity.
  - unfold np.advance. f_equal. lia.
Qed.


Lemma Rdiv_0_r (x : R) : x / 0 = 0.
Proof. unfold Rdiv. rewrite Rinv_0. ring. Qed.




Lemma fringe_flux_channels_dispersed
      (x bandpass F_0 vis coh_phase offset : R) (g : R -> R) (lams : list R) :
  fringe_functions.fringe_flux (np.Scalar x) (np.Array lams) (np.Scalar bandpass)
    (np.Scalar F_0) (np.Scalar vis) (np.Scalar coh_phase)
    (np.Array (map g lams)) (np.Scalar offset)
  = Ok (np.Array (map (fun lam =>
          formulas.intensity x lam bandpass F_0 vis coh_phase (g lam) offset)
          lams)).
Proof.
  unfold fringe_functions.fringe_flux. nd_eval. reflexivity.
Qed.





(** ** The tracking loop *)

Import group_delay_sim_loop.














(** The script's number of frames per incoherent integration. *)
Lemma script_num_group_delay_frames
      (wavelengths trial_delays : list R) (true_params : R * R * R)
      (bias_vis : R) :
  num_group_delay_frames
    (script_config wavelengths trial_delays true_params bias_vis) = 18%Z.
Proof.
  cbn [num_group_delay_frames script_config].
  assert (Ht0 : 0 < t0).
  { unfold t0, r0, v, start_wavelength, seeing, np.pi.
    pose proof PI_RGT_0 as Hpi.
    assert (Hip : 0 < / PI) by now apply Rinv_0_lt_compat.
    unfold Rdiv. set (ip := / PI) in *. lra. }
  assert (Hratio : incoh_int_time / coh_int_time = 18.75).
  { unfold incoh_int_time, coh_int_time.
    assert (Hc : 1.6 * t0 <> 0) by lra.
    apply Rmult_eq_reg_r with (1.6 * t0); [ | exact Hc].
    unfold Rdiv at 1. rewrite Rmult_assoc, Rinv_l by exact Hc. lra. }
  rewrite Hratio. unfold py_int.
  destruct (Rle_dec 0 18.75) as [_|Hneg]; [ | exfalso; lra].
  symmetry. apply Int_part_spec. lra.
Qed.



(* ================================================================== *)
(** * Further properties of the code *)

(** ** The white-light fringe *)

Lemma trial_exponent (lam d : R) :
  Cmul (Cdiv (Cmul (Cmul Cj (RtoC 2)) (RtoC PI)) (RtoC lam)) (RtoC d)
  = mkC 0 (2 * PI * d / lam).
Proof.
  unfold Cmul, Cdiv, RtoC, Cj. cbn [Re Im].
  destruct (Req_dec_T lam 0) as [->|Hl].
  - replace (0 * 0 + 0 * 0) with 0 by ring. rewrite !Rdiv_0_r. f_equal; ring.
  - f_equal; field; exact Hl.
Qed.

Lemma trial_phasor (lam d : R) :
  Cexp (Cmul (Cdiv (Cmul (Cmul Cj (RtoC 2)) (RtoC PI)) (RtoC lam)) (RtoC d))
  = phasor (2 * PI * d / lam).
Proof.
  rewrite trial_exponent. unfold Cexp, phasor. cbn [Re Im].
  rewrite exp_0. f_equal; ring.
Qed.

Lemma find_white_fringe_indexed_sum {I : Type} (g : I -> complex) (w : I -> R)
      (l : list I) (d : R) :
  fringe_functions.find_white_fringe (np.Array (map g l)) d (np.Array (map w l))
  = Ok (Cabs (np.sum_list (RtoC 0)
                (map (fun i => Cmul (g i) (phasor (2 * PI * d / w i))) l)) ^ 2).
Proof.
  unfold fringe_functions.find_white_fringe. nd_eval.
  cbn [np.sum bind].
  rewrite (map_ext _ (fun i => Cmul (g i) (phasor (2 * PI * d / w i))));
    [reflexivity | ].
  intro i. num_simpl. unfold np.pi. now rewrite trial_phasor.
Qed.

Lemma find_white_fringe_channels (gs : list complex) (lams : list R) (d : R) :
  length gs = length lams ->
  fringe_functions.find_white_fringe (np.Array gs) d (np.Array lams)
  = Ok (Cabs (white_fringe_sum gs lams d) ^ 2).
Proof.
  intro Hlen.
  pose proof (find_white_fringe_indexed_sum fst snd (combine gs lams) d) as H.
  rewrite (combine_fst gs lams Hlen), (combine_snd gs lams Hlen) in H.
  rewrite H. unfold white_fringe_sum. now rewrite zip_with_combine.
Qed.

(** ** Modulus *)
Lemma Cabs_nonneg (z : complex) : 0 <= Cabs z.
Proof. apply sqrt_pos. Qed.

Lemma Cabs_sq (z : complex) : Cabs z ^ 2 = Re z * Re z + Im z * Im z.
Proof.
  unfold Cabs. rewrite <- (sqrt_sqrt (Re z * Re z + Im z * Im z)) at 2 by nra.
  ring.
Qed.

Lemma Cabs_triangle (a b : complex) : Cabs (Cadd a b) <= Cabs a + Cabs b.
Proof.
  apply Rsqr_incr_0_var; [ | pose proof (Cabs_nonneg a); pose proof (Cabs_nonneg b); lra].
  rewrite !Rsqr_pow2.
  replace ((Cabs a + Cabs b) ^ 2)
    with (Cabs a ^ 2 + Cabs b ^ 2 + 2 * (Cabs a * Cabs b)) by ring.
  rewrite !Cabs_sq. unfold Cadd. cbn [Re Im].
  pose proof (sqrt_cauchy (Re a) (Im a) (Re b) (Im b)) as H.
  unfold Rsqr in H. unfold Cabs. nra.
Qed.

Lemma Cabs_RtoC_0 : Cabs (RtoC 0) = 0.
Proof.
  unfold Cabs, RtoC. cbn [Re Im]. replace (0 * 0 + 0 * 0) with 0 by ring.
  apply sqrt_0.
Qed.

Lemma Cabs_mul_phasor (g : complex) (theta : R) :
  Cabs (Cmul g (phasor theta)) = Cabs g.
Proof.
  unfold Cabs, Cmul, phasor. cbn [Re Im]. f_equal.
  pose proof (sin2_cos2 theta) as H. unfold Rsqr in H.
  replace ((Re g * cos theta - Im g * sin theta) * (Re g * cos theta - Im g * sin theta)
           + (Re g * sin theta + Im g * cos theta) * (Re g * sin theta + Im g * cos theta))
    with ((Re g * Re g + Im g * Im g) * (sin theta * sin theta + cos theta * cos theta))
    by ring.
  rewrite H. ring.
Qed.

Lemma fold_plus_acc (xs : list R) (c : R) :
  fold_left Rplus xs c = c + fold_left Rplus xs 0.
Proof.
  revert c; induction xs as [|x xs IH]; intro c; cbn; [lra | ].
  rewrite (IH (c + x)), (IH (0 + x)). lra.
Qed.

Lemma Cabs_sum_le (zs : list complex) (acc : complex) :
  Cabs (fold_left Cadd zs acc) <= Cabs acc + fold_left Rplus (map Cabs zs) 0.
Proof.
  revert acc; induction zs as [|z zs IH]; intro acc; cbn [fold_left map].
  - lra.
  - specialize (IH (Cadd acc z)). pose proof (Cabs_triangle acc z).
    rewrite (fold_plus_acc _ (0 + Cabs z)). lra.
Qed.

Lemma map_Cabs_phasors (gs : list complex) (lams : list R) (d : R) :
  length gs = length lams ->
  map Cabs (np.zip_with (fun g lam => Cmul g (phasor (2 * PI * d / lam))) gs lams)
  = map Cabs gs.
Proof.
  revert lams; induction gs as [|g gs IH]; intros [|lam lams] H; cbn in *;
    try discriminate; [reflexivity | ].
  rewrite Cabs_mul_phasor. f_equal. apply IH. lia.
Qed.

Lemma sum_R_nonneg (xs : list R) : Forall (fun x => 0 <= x) xs -> 0 <= sum_R xs.
Proof. intro H. unfold sum_R. now apply sum_list_ge. Qed.

Lemma score_bounds (gs : list complex) (lams : list R) (d : R) :
  length gs = length lams ->
  exists F,
    fringe_functions.find_white_fringe (np.Array gs) d (np.Array lams) = Ok F
    /\ 0 <= F <= sum_R (map Cabs gs) ^ 2.
Proof.
  intro Hlen. rewrite (find_white_fringe_channels gs lams d Hlen).
  eexists. split; [reflexivity | ]. split; [apply pow2_ge_0 | ].
  unfold white_fringe_sum, np.sum_list. cbn [add Num_complex].
  pose proof (Cabs_sum_le
                (np.zip_with (fun g lam => Cmul g (phasor (2 * PI * d / lam))) gs lams)
                (RtoC 0)) as H.
  rewrite Cabs_RtoC_0, (map_Cabs_phasors gs lams d Hlen) in H.
  fold (sum_R (map Cabs gs)) in H.
  match goal with |- Cabs ?z ^ 2 <= _ => pose proof (Cabs_nonneg z) as Hz end.
  apply pow_incr. lra.
Qed.

(** X1.  For a coherence and an array of non-zero wavelengths of one
    length, the white-light fringe intensity of any trial delay lies between
    0 and the square of the sum of the moduli of the coherences. *)
Theorem white_fringe_bounds (gs : list complex) (lams : list R) (d : R) :
  length gs = length lams -> nonzero lams ->
  exists F,
    fringe_functions.find_white_fringe (np.Array gs) d (np.Array lams) = Ok F
    /\ 0 <= F <= sum_R (map Cabs gs) ^ 2.
Proof.
  intros Hlen _. now apply score_bounds.
Qed.

Lemma white_fringe_bounds_witness :
  exists F,
    fringe_functions.find_white_fringe (np.Array [mkC 1 0; mkC 0 1]) 1e-6
      (np.Array [607.5e-9; 622.5e-9]) = Ok F
    /\ 0 <= F <= sum_R (map Cabs [mkC 1 0; mkC 0 1]) ^ 2.
Proof.
  apply (white_fringe_bounds [mkC 1 0; mkC 0 1] [607.5e-9; 622.5e-9] 1e-6).
  - reflexivity.
  - exact example_wavelengths_nonzero.
Defined.

Lemma rotate_back (A phi theta : R) :
  Cmul (Cmul (RtoC A) (phasor (phi - theta))) (phasor theta)
  = mkC (A * cos phi) (A * sin phi).
Proof.
  assert (Hc : cos phi
               = cos (phi - theta) * cos theta - sin (phi - theta) * sin theta)
    by (rewrite <- cos_plus; f_equal; ring).
  assert (Hs : sin phi
               = sin (phi - theta) * cos theta + cos (phi - theta) * sin theta)
    by (rewrite <- sin_plus; f_equal; ring).
  unfold Cmul, RtoC, phasor. cbn [Re Im]. rewrite Hc, Hs. f_equal; ring.
Qed.

Lemma sum_scaled (As : list R) (c s : R) (acc : complex) :
  fold_left Cadd (map (fun A => mkC (A * c) (A * s)) As) acc
  = Cadd acc (mkC (sum_R As * c) (sum_R As * s)).
Proof.
  unfold sum_R.
  revert acc; induction As as [|A As IH]; intro acc; cbn [map fold_left].
  - unfold Cadd. cbn [Re Im]. destruct acc as [re im]. cbn. f_equal; ring.
  - rewrite IH, (fold_plus_acc As (0 + A)). unfold Cadd. cbn [Re Im].
    f_equal; ring.
Qed.

Lemma delayed_coherence_length As lams phi d0 :
  length As = length lams -> length (delayed_coherence As lams phi d0) = length lams.
Proof. intro H. unfold delayed_coherence. rewrite zip_with_length; auto. Qed.

Lemma delayed_coherence_abs As lams phi d0 :
  length As = length lams -> Forall (fun A => 0 <= A) As ->
  map Cabs (delayed_coherence As lams phi d0) = As.
Proof.
  unfold delayed_coherence.
  revert lams; induction As as [|A As IH]; intros [|lam lams] H HA; cbn in *;
    try discriminate; [reflexivity | ].
  inversion HA; subst. rewrite Cabs_mul_phasor. f_equal.
  - unfold Cabs, RtoC. cbn [Re Im].
    replace (A * A + 0 * 0) with (A ^ 2) by ring. now apply sqrt_pow2.
  - apply IH; [lia | assumption].
Qed.

Lemma delayed_coherence_sum As lams phi d0 :
  length As = length lams ->
  white_fringe_sum (delayed_coherence As lams phi d0) lams d0
  = mkC (sum_R As * cos phi) (sum_R As * sin phi).
Proof.
  intro Hlen. unfold white_fringe_sum, np.sum_list. cbn [add Num_complex].
  assert (H : np.zip_with (fun g lam => Cmul g (phasor (2 * PI * d0 / lam)))
                (delayed_coherence As lams phi d0) lams
              = map (fun A => mkC (A * cos phi) (A * sin phi)) As).
  { unfold delayed_coherence.
    revert lams Hlen; induction As as [|A As IH]; intros [|lam lams] H; cbn in *;
      try discriminate; [reflexivity | ].
    rewrite rotate_back. f_equal. apply IH. lia. }
  rewrite H, sum_scaled. unfold Cadd, RtoC. cbn [Re Im]. f_equal; ring.
Qed.

Lemma score_peak (As lams : list R) (phi d0 : R) :
  length As = length lams -> Forall (fun A => 0 <= A) As ->
  let gamma := np.Array (delayed_coherence As lams phi d0) in
  fringe_functions.find_white_fringe gamma d0 (np.Array lams)
  = Ok (sum_R As ^ 2)
  /\ forall d, exists F,
       fringe_functions.find_white_fringe gamma d (np.Array lams) = Ok F
       /\ F <= sum_R As ^ 2.
Proof.
  intros Hlen HA gamma. subst gamma. split.
  - rewrite find_white_fringe_channels by now apply delayed_coherence_length.
    rewrite delayed_coherence_sum by exact Hlen. f_equal.
    rewrite Cabs_sq. cbn [Re Im].
    pose proof (sin2_cos2 phi) as H. unfold Rsqr in H.
    replace (sum_R As * cos phi * (sum_R As * cos phi)
             + sum_R As * sin phi * (sum_R As * sin phi))
      with (sum_R As ^ 2 * (sin phi * sin phi + cos phi * cos phi)) by ring.
    rewrite H. ring.
  - intro d.
    destruct (score_bounds (delayed_coherence As lams phi d0) lams d)
      as [F [HF [_ Hle]]]; [now apply delayed_coherence_length | ].
    exists F. split; [exact HF | ].
    now rewrite delayed_coherence_abs in Hle.
Qed.

(** X2.  For a coherence with amplitudes A_k >= 0 and phases
    phi - 2 pi d0 / lam_k over non-zero wavelengths, [find_white_fringe] at
    the trial delay d0 is (sum of the A_k)^2, and no trial delay scores
    more. *)
Theorem white_fringe_peak (As lams : list R) (phi d0 : R) :
  length As = length lams -> nonzero lams -> Forall (fun A => 0 <= A) As ->
  let gamma := np.Array (delayed_coherence As lams phi d0) in
  fringe_functions.find_white_fringe gamma d0 (np.Array lams)
  = Ok (sum_R As ^ 2)
  /\ forall d, exists F,
       fringe_functions.find_white_fringe gamma d (np.Array lams) = Ok F
       /\ F <= sum_R As ^ 2.
Proof.
  intros Hlen _ HA. exact (score_peak As lams phi d0 Hlen HA).
Qed.

Lemma white_fringe_peak_witness :
  fringe_functions.find_white_fringe
    (np.Array (delayed_coherence [1; 0.5] [607.5e-9; 622.5e-9] (PI / 6) 1e-5)) 1e-5
    (np.Array [607.5e-9; 622.5e-9])
  = Ok (sum_R [1; 0.5] ^ 2).
Proof.
  assert (HA : Forall (fun A => 0 <= A) [1; 0.5]) by (repeat constructor; lra).
  pose proof (white_fringe_peak [1; 0.5] [607.5e-9; 622.5e-9] (PI / 6) 1e-5
                eq_refl example_wavelengths_nonzero HA) as H.
  cbv zeta in H. exact (proj1 H).
Defined.

Lemma for_each_collect_spec (f : R -> result R) (tds acc : list R) :
  match fringe_functions.for_each tds
          (fun F_array delay => F <- f delay ;; Ok (F_array ++ [F])) acc with
  | Ok out => exists vals, out = acc ++ vals
                           /\ Forall2 (fun d F => f d = Ok F) tds vals
  | Raise e => exists d, In d tds /\ f d = Raise e
  end.
Proof.
  revert acc; induction tds as [|d tds IH]; intro acc.
  - cbn. exists []. split; [now rewrite app_nil_r | constructor].
  - cbn [fringe_functions.for_each]. destruct (f d) as [F|e] eqn:Hd; cbn [bind].
    + specialize (IH (acc ++ [F])).
      destruct (fringe_functions.for_each tds _ (acc ++ [F])) as [out|e].
      * destruct IH as [vals [-> HF]]. exists (F :: vals).
        split; [now rewrite <- app_assoc | now constructor].
      * destruct IH as [d' [Hin Hd']]. exists d'. split; [now right | exact Hd'].
    + exists d. split; [now left | exact Hd].
Qed.

Lemma group_delay_envelope_spec
        (gamma : np.ndarray complex) (tds : list R) (wavelengths : nd)
        (plot : bool) :
  match fringe_functions.group_delay_envelope gamma tds wavelengths plot with
  | Ok (envelope, figures) =>
      exists vals,
        envelope = np.Array vals
        /\ Forall2 (fun d F =>
             fringe_functions.find_white_fringe gamma d wavelengths = Ok F)
             tds vals
        /\ figures = (if plot then [(tds, vals)] else [])
  | Raise e =>
      exists d, In d tds
                /\ fringe_functions.find_white_fringe gamma d wavelengths
                   = Raise e
  end.
Proof.
  unfold fringe_functions.group_delay_envelope.
  pose proof (for_each_collect_spec
                (fun d => fringe_functions.find_white_fringe gamma d wavelengths)
                tds []) as H.
  destruct (fringe_functions.for_each tds _ []) as [out|e]; cbn [bind].
  - destruct H as [vals [-> HF]]. cbn [app].
    destruct plot; exists vals; auto.
  - exact H.
Qed.

(** X3.  [group_delay_envelope] returns an array aligned with the trial
    delays: entry i is [find_white_fringe] of trial delay i; with [plot] it
    also shows that one curve, and the array is the same.  It raises only
    the exception [find_white_fringe] raises on some trial delay. *)
Theorem group_delay_envelope_aligned
        (gamma : np.ndarray complex) (tds : list R) (wavelengths : nd)
        (plot : bool) :
  match fringe_functions.group_delay_envelope gamma tds wavelengths plot with
  | Ok (envelope, figures) =>
      exists vals,
        envelope = np.Array vals
        /\ Forall2 (fun d F =>
             fringe_functions.find_white_fringe gamma d wavelengths = Ok F)
             tds vals
        /\ figures = (if plot then [(tds, vals)] else [])
  | Raise e =>
      exists d, In d tds
                /\ fringe_functions.find_white_fringe gamma d wavelengths
                   = Raise e
  end.
Proof.
  apply group_delay_envelope_spec.
Qed.

Lemma Forall2_nth_error {A B : Type} (P : A -> B -> Prop) (xs : list A)
      (ys : list B) :
  Forall2 P xs ys ->
  length xs = length ys
  /\ forall i x y, nth_error xs i = Some x -> nth_error ys i = Some y -> P x y.
Proof.
  induction 1 as [|x y xs ys Hxy HF [IHl IH]]; split; cbn; auto.
  - intros [|i]; discriminate.
  - intros [|i] x' y' Hx Hy; cbn in *.
    + now inversion Hx; inversion Hy; subst.
    + eapply IH; eauto.
Qed.

Lemma peak_search_spec (gs : list complex) (lams tds : list R) (plot : bool) :
  length gs = length lams -> tds <> [] ->
  exists envelope figures i d F,
    fringe_functions.group_delay_envelope (np.Array gs) tds (np.Array lams) plot
    = Ok (envelope, figures)
    /\ fringe_functions.find_delay envelope tds = Ok d
    /\ nth_error tds i = Some d
    /\ fringe_functions.find_white_fringe (np.Array gs) d (np.Array lams) = Ok F
    /\ forall j d',
         nth_error tds j = Some d' ->
         exists F',
           fringe_functions.find_white_fringe (np.Array gs) d' (np.Array lams)
           = Ok F'
           /\ F' <= F
           /\ ((j < i)%nat -> F' < F).
Proof.
  intros Hlen Hne.
  pose proof (group_delay_envelope_spec (np.Array gs) tds (np.Array lams) plot)
    as H.
  destruct (fringe_functions.group_delay_envelope _ _ _ _) as [[env figs]|e].
  - destruct H as [vals [-> [HF _]]].
    apply Forall2_nth_error in HF. destruct HF as [Hl Hnth].
    destruct (find_delay_spec vals tds) as [i [d [Hd [Hi [F [HFi Hmax]]]]]].
    { intro E. subst vals. destruct tds; [congruence | discriminate]. }
    { exact Hl. }
    exists (np.Array vals), figs, i, d, F.
    repeat split; auto.
    + exact (Hnth i d F Hi HFi).
    + intros j d' Hj.
      assert (Hjl : (j < length vals)%nat).
      { rewrite <- Hl. apply nth_error_Some. rewrite Hj. discriminate. }
      destruct (nth_error vals j) as [F'|] eqn:HF';
        [ | apply nth_error_None in HF'; lia].
      exists F'. split; [exact (Hnth j d' F' Hj HF') | ].
      apply (Hmax j F' HF').
  - exfalso. destruct H as [d [_ Hd]].
    rewrite (find_white_fringe_channels gs lams d Hlen) in Hd. discriminate.
Qed.

(** X4.  For a coherence and non-zero wavelengths of one length and a
    non-empty trial-delay sequence, [find_delay] on the envelope of
    [group_delay_envelope] returns the trial delay of the largest
    white-light fringe intensity, the first one among equals. *)
Theorem phasor_peak_search (gs : list complex) (lams tds : list R) (plot : bool) :
  length gs = length lams -> nonzero lams -> tds <> [] ->
  exists envelope figures i d F,
    fringe_functions.group_delay_envelope (np.Array gs) tds (np.Array lams) plot
    = Ok (envelope, figures)
    /\ fringe_functions.find_delay envelope tds = Ok d
    /\ nth_error tds i = Some d
    /\ fringe_functions.find_white_fringe (np.Array gs) d (np.Array lams) = Ok F
    /\ forall j d',
         nth_error tds j = Some d' ->
         exists F',
           fringe_functions.find_white_fringe (np.Array gs) d' (np.Array lams)
           = Ok F'
           /\ F' <= F
           /\ ((j < i)%nat -> F' < F).
Proof.
  intros Hlen _. now apply peak_search_spec.
Qed.

Lemma phasor_peak_search_witness :
  exists envelope figures d,
    fringe_functions.group_delay_envelope (np.Array [mkC 1 0; mkC 0 1])
      [-1e-6; 0; 1e-6] (np.Array [607.5e-9; 622.5e-9]) false = Ok (envelope, figures)
    /\ fringe_functions.find_delay envelope [-1e-6; 0; 1e-6] = Ok d.
Proof.
  destruct (phasor_peak_search [mkC 1 0; mkC 0 1] [607.5e-9; 622.5e-9] [-1e-6; 0; 1e-6] false)
    as [env [figs [i [d [F [H1 [H2 _]]]]]]].
  - reflexivity.
  - exact example_wavelengths_nonzero.
  - discriminate.
  - exists env, figs, d. auto.
Defined.

Lemma delayed_coherence_recovered (As lams tds : list R) (phi d0 : R) :
  length As = length lams -> Forall (fun A => 0 <= A) As -> In d0 tds ->
  let gamma := np.Array (delayed_coherence As lams phi d0) in
  exists envelope figures d,
    fringe_functions.group_delay_envelope gamma tds (np.Array lams) false
    = Ok (envelope, figures)
    /\ fringe_functions.find_delay envelope tds = Ok d
    /\ In d tds
    /\ fringe_functions.find_white_fringe gamma d (np.Array lams)
       = Ok (sum_R As ^ 2).
Proof.
  intros Hlen HA Hin gamma. subst gamma.
  destruct (peak_search_spec (delayed_coherence As lams phi d0) lams tds false)
    as [env [figs [i [d [F [Hg [Hd [Hi [HF Hmax]]]]]]]]].
  { now apply delayed_coherence_length. }
  { intro E. subst tds. destruct Hin. }
  exists env, figs, d. repeat split; auto.
  - eapply nth_error_In; eauto.
  - destruct (score_peak As lams phi d0 Hlen HA) as [Hpeak Hbound].
    destruct (Hbound d) as [F1 [HF1 Hle]].
    rewrite HF in HF1. inversion HF1; subst F1.
    destruct (In_nth_error _ _ Hin) as [j Hj].
    destruct (Hmax j d0 Hj) as [F0 [HF0 [Hle0 _]]].
    rewrite Hpeak in HF0. inversion HF0; subst F0.
    rewrite HF. f_equal. lra.
Qed.

(** X5.  When the coherence carries the delay d0 (amplitudes >= 0,
    non-zero wavelengths) and d0 is one of the trial delays, the envelope
    search returns a trial delay whose white-light fringe intensity is the
    largest possible one, (sum of the amplitudes)^2. *)
Theorem true_delay_recovered (As lams tds : list R) (phi d0 : R) :
  length As = length lams -> nonzero lams -> Forall (fun A => 0 <= A) As ->
  In d0 tds ->
  let gamma := np.Array (delayed_coherence As lams phi d0) in
  exists envelope figures d,
    fringe_functions.group_delay_envelope gamma tds (np.Array lams) false
    = Ok (envelope, figures)
    /\ fringe_functions.find_delay envelope tds = Ok d
    /\ In d tds
    /\ fringe_functions.find_white_fringe gamma d (np.Array lams)
       = Ok (sum_R As ^ 2).
Proof.
  intros Hlen _ HA Hin.
  exact (delayed_coherence_recovered As lams tds phi d0 Hlen HA Hin).
Qed.

Lemma true_delay_recovered_witness :
  exists envelope figures d,
    fringe_functions.group_delay_envelope
      (np.Array (delayed_coherence [1; 0.5] [607.5e-9; 622.5e-9] (PI / 6) 0)) [-1e-6; 0; 1e-6]
      (np.Array [607.5e-9; 622.5e-9]) false = Ok (envelope, figures)
    /\ fringe_functions.find_delay envelope [-1e-6; 0; 1e-6] = Ok d
    /\ In d [-1e-6; 0; 1e-6].
Proof.
  assert (HA : Forall (fun A => 0 <= A) [1; 0.5]) by (repeat constructor; lra).
  assert (Hin : In 0 [-1e-6; 0; 1e-6]) by (right; left; reflexivity).
  pose proof (true_delay_recovered [1; 0.5] [607.5e-9; 622.5e-9]
                [-1e-6; 0; 1e-6] (PI / 6) 0 eq_refl example_wavelengths_nonzero
                HA Hin) as H.
  cbv zeta in H. destruct H as [env [figs [d [H1 [H2 [H3 _]]]]]].
  exists env, figs, d. auto.
Defined.

(** ** Shapes *)
Lemma broadcast2_arrays_error {A B C : Type} (f : A -> B -> C)
      (xs : list A) (ys : list B) :
  length xs <> length ys -> length xs <> 1%nat -> length ys <> 1%nat ->
  np.broadcast2 f (np.Array xs) (np.Array ys) = Raise ValueError.
Proof.
  intros Hne Hx Hy. cbn [np.broadcast2].
  destruct (Nat.eqb_spec (length xs) (length ys)) as [E|_]; [contradiction | ].
  destruct xs as [|x [|x' xs]]; destruct ys as [|y [|y' ys]]; cbn in *;
    try reflexivity; congruence.
Qed.

(** X6.  When the coherence and the wavelengths are arrays of
    different lengths, neither of length 1, [find_white_fringe] raises
    ValueError; [group_delay_envelope] then raises ValueError on any
    non-empty trial-delay sequence and returns the empty array on the empty
    one. *)
Theorem white_fringe_shape_error (gs : list complex) (lams : list R) :
  length gs <> length lams -> length gs <> 1%nat -> length lams <> 1%nat ->
  (forall d,
      fringe_functions.find_white_fringe (np.Array gs) d (np.Array lams)
      = Raise ValueError)
  /\ (forall tds plot,
      tds <> [] ->
      fringe_functions.group_delay_envelope (np.Array gs) tds (np.Array lams) plot
      = Raise ValueError)
  /\ (forall plot,
      fringe_functions.group_delay_envelope (np.Array gs) [] (np.Array lams) plot
      = Ok (np.Array [], if plot then [([], [])] else [])).
Proof.
  intros Hne Hg Hl.
  assert (Hfw : forall d,
             fringe_functions.find_white_fringe (np.Array gs) d (np.Array lams)
             = Raise ValueError).
  { intro d. unfold fringe_functions.find_white_fringe. nd_eval.
    destruct (Nat.eqb_spec (length gs) (length lams)) as [E|_];
      [contradiction | ].
    destruct gs as [|g [|g' gs]]; destruct lams as [|l [|l' lams]]; cbn in *;
      try reflexivity; congruence. }
  refine (conj Hfw (conj _ _)).
  - intros [|d tds] plot Hnil; [congruence | ].
    unfold fringe_functions.group_delay_envelope.
    cbn [fringe_functions.for_each]. now rewrite Hfw.
  - intros [|]; reflexivity.
Qed.

Lemma white_fringe_shape_error_witness :
  fringe_functions.find_white_fringe (np.Array [mkC 1 0; mkC 0 1; mkC 1 1]) 0
    (np.Array [607.5e-9; 622.5e-9]) = Raise ValueError.
Proof.
  refine (proj1 (white_fringe_shape_error [mkC 1 0; mkC 0 1; mkC 1 1] [607.5e-9; 622.5e-9]
                   _ _ _) 0); cbn [length]; lia.
Defined.

(** X7.  [find_delay] returns the trial delay at the index of the
    first maximum of the envelope when the trial delays reach that index,
    and raises IndexError when they are too short. *)
Theorem find_delay_index_error (env tds : list R) :
  env <> [] ->
  exists r,
    first_max env r
    /\ ((r < length tds)%nat ->
        exists d, fringe_functions.find_delay (np.Array env) tds = Ok d
                  /\ nth_error tds r = Some d)
    /\ ((length tds <= r)%nat ->
        fringe_functions.find_delay (np.Array env) tds = Raise IndexError).
Proof.
  intro Hne. destruct (argmax_spec env Hne) as [r [Hr Hmax]].
  exists r. split; [exact Hmax | ].
  unfold fringe_functions.find_delay. rewrite Hr. cbn [bind]. unfold np.getitem.
  split; intro H.
  - destruct (nth_error tds r) as [d|] eqn:Hd.
    + exists d. auto.
    + apply nth_error_None in Hd. lia.
  - apply nth_error_None in H. now rewrite H.
Qed.

Lemma find_delay_index_error_witness :
  exists r, first_max [1; 3; 2] r.
Proof.
  destruct (find_delay_index_error [1; 3; 2] [10]) as [r [H _]].
  - discriminate.
  - exists r. exact H.
Defined.

(** ** Conservation of the flux *)
(** X8.  At every wavelength (in the band of the glass, as the reference
    wavelength) the noiseless fluxes of the three tricoupler outputs
    (offsets 0, 2 pi / 3, 4 pi / 3) add up to 3 F_0, and those of the two AC
    outputs (offsets 0, pi, with the glass phase) to 2 F_0. *)
Theorem flux_conservation (x bandpass F_0 vis coh_phase length lam_0 : R)
        (lams : list R) :
  Forall in_band lams -> in_band lam_0 ->
  (exists I_A I_B I_C,
      fringe_functions.fringe_flux (np.Scalar x) (np.Array lams)
        (np.Scalar bandpass) (np.Scalar F_0) (np.Scalar vis)
        (np.Scalar coh_phase) (np.Scalar 0) (np.Scalar 0)
      = Ok (np.Array (map I_A lams))
      /\ fringe_functions.fringe_flux (np.Scalar x) (np.Array lams)
           (np.Scalar bandpass) (np.Scalar F_0) (np.Scalar vis)
           (np.Scalar coh_phase) (np.Scalar 0) (np.Scalar (2 * PI / 3))
         = Ok (np.Array (map I_B lams))
      /\ fringe_functions.fringe_flux (np.Scalar x) (np.Array lams)
           (np.Scalar bandpass) (np.Scalar F_0) (np.Scalar vis)
           (np.Scalar coh_phase) (np.Scalar 0) (np.Scalar (4 * PI / 3))
         = Ok (np.Array (map I_C lams))
      /\ forall lam, I_A lam + I_B lam + I_C lam = 3 * F_0)
  /\ (exists disp_phase I_A I_C,
      fringe_functions.phaseshift_glass (np.Array lams) (np.Scalar length)
        (np.Scalar lam_0) = Ok disp_phase
      /\ fringe_functions.fringe_flux (np.Scalar x) (np.Array lams)
           (np.Scalar bandpass) (np.Scalar F_0) (np.Scalar vis)
           (np.Scalar coh_phase) disp_phase (np.Scalar 0)
         = Ok (np.Array (map I_A lams))
      /\ fringe_functions.fringe_flux (np.Scalar x) (np.Array lams)
           (np.Scalar bandpass) (np.Scalar F_0) (np.Scalar vis)
           (np.Scalar coh_phase) disp_phase (np.Scalar PI)
         = Ok (np.Array (map I_C lams))
      /\ forall lam, I_A lam + I_C lam = 2 * F_0).
Proof.
  intros _ _. split.
  - do 3 eexists. rewrite !fringe_flux_channels.
    refine (conj eq_refl (conj eq_refl (conj eq_refl _))).
    intro lam. apply tricoupler_fluxes_sum.
  - exists (np.Array (map (fun lam =>
              formulas.glass_dispersion_phase lam length lam_0) lams)).
    do 2 eexists. rewrite phaseshift_glass_channels.
    rewrite !fringe_flux_channels_dispersed.
    refine (conj eq_refl (conj eq_refl (conj eq_refl _))).
    intro lam. cbv beta. apply ac_fluxes_sum.
Qed.

Lemma flux_conservation_witness :
  exists disp_phase I_A I_C,
    fringe_functions.phaseshift_glass (np.Array [607.5e-9; 622.5e-9])
      (np.Scalar 5e-2) (np.Scalar 675e-9) = Ok disp_phase
    /\ fringe_functions.fringe_flux (np.Scalar 1e-6)
         (np.Array [607.5e-9; 622.5e-9]) (np.Scalar 15e-9) (np.Scalar 100)
         (np.Scalar 0.5) (np.Scalar (PI / 6)) disp_phase (np.Scalar 0)
       = Ok (np.Array (map I_A [607.5e-9; 622.5e-9]))
    /\ fringe_functions.fringe_flux (np.Scalar 1e-6)
         (np.Array [607.5e-9; 622.5e-9]) (np.Scalar 15e-9) (np.Scalar 100)
         (np.Scalar 0.5) (np.Scalar (PI / 6)) disp_phase (np.Scalar PI)
       = Ok (np.Array (map I_C [607.5e-9; 622.5e-9]))
    /\ forall lam, I_A lam + I_C lam = 2 * 100.
Proof.
  exact (proj2 (flux_conservation 1e-6 15e-9 100 0.5 (PI / 6) 5e-2 675e-9
                  [607.5e-9; 622.5e-9] example_wavelengths_in_band
                  example_reference_in_band)).
Defined.










(** ** Bounds of the intensity *)
(** X11.  For F_0 >= 0 and a visibility in [-1, 1], [fringe_flux] over an
    array of non-zero wavelengths returns one flux per wavelength, each
    between 0 and 2 F_0. *)
Theorem fringe_flux_bounds (x bandpass F_0 vis coh_phase disp_phase offset : R)
        (lams : list R) :
  nonzero lams -> 0 <= F_0 -> -1 <= vis <= 1 ->
  exists flux,
    fringe_functions.fringe_flux (np.Scalar x) (np.Array lams)
      (np.Scalar bandpass) (np.Scalar F_0) (np.Scalar vis)
      (np.Scalar coh_phase) (np.Scalar disp_phase) (np.Scalar offset)
    = Ok (np.Array flux)
    /\ length flux = length lams
    /\ Forall (fun f => 0 <= f <= 2 * F_0) flux.
Proof.
  intros _ HF Hv. rewrite fringe_flux_channels. eexists.
  split; [reflexivity | ]. split; [apply length_map | ].
  apply Forall_forall. intros f Hf. apply in_map_iff in Hf.
  destruct Hf as [lam [<- _]]. unfold formulas.intensity.
  pose proof (sinc1_bound (x * bandpass / lam ^ 2)) as HE.
  pose proof (COS_bound (2 * PI * x / lam - coh_phase - disp_phase - offset)) as HC.
  set (E := np.sinc1 _) in *. set (c := cos _) in *. clearbody E c.
  assert (HEv : -1 <= E * vis <= 1) by nra.
  assert (HEvc : -1 <= E * vis * c <= 1) by nra.
  nra.
Qed.

Lemma fringe_flux_bounds_witness :
  exists flux,
    fringe_functions.fringe_flux (np.Scalar 1e-6) (np.Array [607.5e-9; 622.5e-9])
      (np.Scalar 15e-9) (np.Scalar 100) (np.Scalar 0.5) (np.Scalar (PI / 6))
      (np.Scalar 0) (np.Scalar 0)
    = Ok (np.Array flux)
    /\ length flux = length [607.5e-9; 622.5e-9]
    /\ Forall (fun f => 0 <= f <= 2 * 100) flux.
Proof.
  apply (fringe_flux_bounds 1e-6 15e-9 100 0.5 (PI / 6) 0 0 [607.5e-9; 622.5e-9]).
  - exact example_wavelengths_nonzero.
  - lra.
  - lra.
Defined.

(** X12.  At a delay of k wavelengths (k a natural number) the
    cosine of [fringe_flux] is back at its value for delay 0: the flux is
    F_0 (1 + sinc(k dl / lam) V cos(- phi - phi_d - phi_o)). *)
Theorem fringe_flux_whole_wavelengths
        (k : nat) (lam bandpass F_0 vis coh_phase disp_phase offset : R) :
  lam <> 0 ->
  fringe_functions.fringe_flux (np.Scalar (INR k * lam)) (np.Scalar lam)
    (np.Scalar bandpass) (np.Scalar F_0) (np.Scalar vis) (np.Scalar coh_phase)
    (np.Scalar disp_phase) (np.Scalar offset)
  = Ok (np.Scalar
          (F_0 * (1 + np.sinc1 (INR k * bandpass / lam) * vis
                      * cos (- coh_phase - disp_phase - offset)))).
Proof.
  intro Hlam. rewrite fringe_flux_scalar. unfold formulas.intensity.
  replace (INR k * lam * bandpass / lam ^ 2) with (INR k * bandpass / lam)
    by (field; exact Hlam).
  replace (2 * PI * (INR k * lam) / lam - coh_phase - disp_phase - offset)
    with (- coh_phase - disp_phase - offset + 2 * INR k * PI)
    by (field; exact Hlam).
  now rewrite cos_period.
Qed.

Lemma fringe_flux_whole_wavelengths_witness :
  fringe_functions.fringe_flux (np.Scalar (INR 3 * 600e-9)) (np.Scalar 600e-9)
    (np.Scalar 15e-9) (np.Scalar 100) (np.Scalar 0.5) (np.Scalar (PI / 6))
    (np.Scalar 0) (np.Scalar 0)
  = Ok (np.Scalar
          (100 * (1 + np.sinc1 (INR 3 * 15e-9 / 600e-9) * 0.5
                      * cos (- (PI / 6) - 0 - 0)))).
Proof.
  apply (fringe_flux_whole_wavelengths 3 600e-9 15e-9 100 0.5 (PI / 6) 0 0).
  lra.
Defined.

Lemma intensity_zero_visibility (x lam bp F_0 phi phi_d offset : R) :
  formulas.intensity x lam bp F_0 0 phi phi_d offset = F_0.
Proof. unfold formulas.intensity. ring. Qed.

Lemma cal_coherence_zero_visibility
        (delay_bad delay_fix delay_bad' delay_fix' : R) (wavelengths : list R)
        (bandpass F_0 coh_phase coh_phase' : R) (s : np.RandomState) :
  fringe_functions.cal_coherence delay_bad delay_fix wavelengths
    (np.Scalar bandpass) (F_0, 0, coh_phase) s
  = fringe_functions.cal_coherence delay_bad' delay_fix' wavelengths
      (np.Scalar bandpass) (F_0, 0, coh_phase') s.
Proof.
  rewrite (list_as_map_seq wavelengths).
  rewrite !cal_coherence_cases. cbv zeta.
  assert (H : forall x phi offset,
             map (fun k =>
                    formulas.intensity x (nth k wavelengths 0) bandpass F_0 0
                      phi 0 offset) (seq 0 (length wavelengths))
             = map (fun _ => F_0) (seq 0 (length wavelengths))).
  { intros x phi offset. apply map_ext. intro k.
    apply intensity_zero_visibility. }
  rewrite !H.
  destruct (_ || _ || _); [reflexivity | ].
  f_equal. f_equal. f_equal. apply map_ext. intro k.
  now rewrite !intensity_zero_visibility.
Qed.

(** X13.  With visibility 0 [cal_coherence] does not depend on the
    delays nor on the coherence phase: for the same random state the result
    is the same. *)
Theorem zero_visibility_ignores_delay
        (delay_bad delay_fix delay_bad' delay_fix' : R) (wavelengths : list R)
        (bandpass F_0 coh_phase coh_phase' : R) (s : np.RandomState) :
  fringe_functions.cal_coherence delay_bad delay_fix wavelengths
    (np.Scalar bandpass) (F_0, 0, coh_phase) s
  = fringe_functions.cal_coherence delay_bad' delay_fix' wavelengths
      (np.Scalar bandpass) (F_0, 0, coh_phase') s.
Proof.
  apply cal_coherence_zero_visibility.
Qed.

(** ** The AC path *)
Lemma sum_list_le (xs : list R) (acc c : R) :
  Forall (fun x => x <= c) xs ->
  fold_left Rplus xs acc <= acc + c * INR (length xs).
Proof.
  revert acc; induction xs as [|x xs IH]; intros acc H.
  - cbn. lra.
  - inversion H as [|? ? Hx Hxs]; subst. cbn [fold_left].
    specialize (IH (acc + x) Hxs).
    change (length (x :: xs)) with (S (length xs)). rewrite S_INR. lra.
Qed.

Lemma chi_2_le (gs lams : list R) (delay length lam_0 : R) :
  List.length lams = List.length gs ->
  Forall (fun g => -1 <= g <= 1) gs ->
  np.sum_list 0
    (np.zip_with
       (fun lam g => (formulas.ac_model delay length lam_0 lam - g) ^ 2) lams gs)
  <= 4 * INR (List.length lams).
Proof.
  intros Hlen Hg. unfold np.sum_list. cbn [add Num_R].
  pose proof (sum_list_le
                (np.zip_with
                   (fun lam g => (formulas.ac_model delay length lam_0 lam - g) ^ 2)
                   lams gs) 0 4) as H.
  rewrite zip_with_length in H by exact Hlen.
  rewrite Rplus_0_l in H. apply H.
  rewrite zip_with_combine. apply Forall_forall. intros v Hv.
  apply in_map_iff in Hv. destruct Hv as [[lam g] [<- Hin]]. cbn [fst snd].
  apply in_combine_r in Hin. rewrite Forall_forall in Hg.
  specialize (Hg g Hin).
  pose proof (COS_bound (2 * PI * delay / lam
                         - formulas.glass_dispersion_phase lam length lam_0)) as Hc.
  unfold formulas.ac_model. nra.
Qed.

Lemma find_delay_AC_member (gamma_r : nd) (tds : list R) (wavelengths : nd)
      (length lam_0 : R) (plot : bool) (d : R) :
  fst (fringe_functions.find_delay_AC gamma_r tds wavelengths length lam_0 plot)
  = Ok d ->
  In d tds.
Proof.
  intro H.
  assert (H' : fst (fringe_functions.find_delay_AC gamma_r tds wavelengths
                      length lam_0 false) = Ok d).
  { destruct plot; [rewrite <- find_delay_AC_estimate_eq | ]; exact H. }
  rewrite find_delay_AC_noplot in H'.
  destruct (fringe_functions.for_each tds _ (1e10, None))
    as [[m' dm']|e] eqn:Hloop; cbn in H'; [ | discriminate].
  apply scan_spec in Hloop.
  inversion Hloop as [Hall | i d0 c Hi Hd Hc Hmin]; subst; cbn in H';
    [discriminate | ].
  inversion H'; subst. eapply nth_error_In; eauto.
Qed.

(** X14.  When every real coherence is in [-1, 1], the wavelengths and
    the reference wavelength are in the band of the glass, there are fewer
    than 2.5e9 channels and the trial-delay sequence is not empty,
    [find_delay_AC] returns one of the trial delays. *)
Theorem find_delay_AC_bounded_coherence
        (gs lams tds : list R) (length lam_0 : R) (plot : bool) :
  List.length lams = List.length gs ->
  Forall in_band lams -> in_band lam_0 ->
  Forall (fun g => -1 <= g <= 1) gs ->
  4 * INR (List.length lams) < 1e10 ->
  tds <> [] ->
  exists d,
    fst (fringe_functions.find_delay_AC (np.Array gs) tds (np.Array lams) length
           lam_0 plot) = Ok d
    /\ In d tds.
Proof.
  intros Hlen _ _ Hg Hn Hne.
  destruct (find_delay_AC_returns (np.Array gs) tds (np.Array lams) length lam_0
              plot) as [d Hd].
  - intros d _. eexists. now apply calc_chi_2_AC_channels.
  - destruct tds as [|d0 tds]; [congruence | ].
    exists d0. eexists. split; [now left | ]. split.
    + now apply calc_chi_2_AC_channels.
    + pose proof (chi_2_le gs lams d0 length lam_0 Hlen Hg). lra.
  - exists d. split; [exact Hd | ]. eapply find_delay_AC_member; eauto.
Qed.

Lemma find_delay_AC_bounded_coherence_witness :
  exists d,
    fst (fringe_functions.find_delay_AC (np.Array [0.5; -0.2]) [-1e-6; 0; 1e-6]
           (np.Array [607.5e-9; 622.5e-9]) 5e-2 675e-9 false) = Ok d
    /\ In d [-1e-6; 0; 1e-6].
Proof.
  apply (find_delay_AC_bounded_coherence [0.5; -0.2] [607.5e-9; 622.5e-9]
           [-1e-6; 0; 1e-6] 5e-2 675e-9 false).
  - reflexivity.
  - exact example_wavelengths_in_band.
  - exact example_reference_in_band.
  - repeat constructor; lra.
  - cbn [length INR]. lra.
  - discriminate.
Defined.



(** ** The glass *)
(** X16.  The phase shift of the glass is additive in the length of glass:
    for every wavelength (in the band of the glass, as the reference
    wavelength), the phase for L1 + L2 is the sum of the phases for L1 and
    for L2. *)
Theorem glass_phase_additive (lams : list R) (L1 L2 lam_0 : R) :
  Forall in_band lams -> in_band lam_0 ->
  exists p1 p2 p12,
    fringe_functions.phaseshift_glass (np.Array lams) (np.Scalar L1)
      (np.Scalar lam_0) = Ok (np.Array (map p1 lams))
    /\ fringe_functions.phaseshift_glass (np.Array lams) (np.Scalar L2)
         (np.Scalar lam_0) = Ok (np.Array (map p2 lams))
    /\ fringe_functions.phaseshift_glass (np.Array lams) (np.Scalar (L1 + L2))
         (np.Scalar lam_0) = Ok (np.Array (map p12 lams))
    /\ forall lam, p12 lam = p1 lam + p2 lam.
Proof.
  intros _ _. do 3 eexists. rewrite !phaseshift_glass_channels.
  refine (conj eq_refl (conj eq_refl (conj eq_refl _))).
  intro lam. unfold formulas.glass_dispersion_phase, Rdiv. ring.
Qed.

Lemma glass_phase_additive_witness :
  exists p1 p2 p12,
    fringe_functions.phaseshift_glass (np.Array [607.5e-9; 622.5e-9])
      (np.Scalar 2e-2) (np.Scalar 675e-9)
    = Ok (np.Array (map p1 [607.5e-9; 622.5e-9]))
    /\ fringe_functions.phaseshift_glass (np.Array [607.5e-9; 622.5e-9])
         (np.Scalar 3e-2) (np.Scalar 675e-9)
       = Ok (np.Array (map p2 [607.5e-9; 622.5e-9]))
    /\ fringe_functions.phaseshift_glass (np.Array [607.5e-9; 622.5e-9])
         (np.Scalar (2e-2 + 3e-2)) (np.Scalar 675e-9)
       = Ok (np.Array (map p12 [607.5e-9; 622.5e-9]))
    /\ forall lam, p12 lam = p1 lam + p2 lam.
Proof.
  exact (glass_phase_additive [607.5e-9; 622.5e-9] 2e-2 3e-2 675e-9
           example_wavelengths_in_band example_reference_in_band).
Defined.

Lemma sellmeier_term_pos (B C lam : R) :
  0 < B -> 0 < lam -> lam < C -> 0 < B * lam ^ 2 / (C ^ 2 - lam ^ 2).
Proof.
  intros HB Hl HC. apply Rdiv_lt_0_compat; [ | nra].
  apply Rmult_lt_0_compat; [exact HB | nra].
Qed.

Lemma sellmeier_term_le (B C lam lam1 : R) :
  0 < B -> 0 < lam -> lam <= lam1 -> lam1 < C ->
  B * lam ^ 2 / (C ^ 2 - lam ^ 2) <= B * lam1 ^ 2 / (C ^ 2 - lam1 ^ 2).
Proof.
  intros HB Hl Hle HC.
  assert (Hd : 0 < C ^ 2 - lam ^ 2) by nra.
  assert (Hd1 : 0 < C ^ 2 - lam1 ^ 2) by nra.
  apply Rminus_le.
  replace (B * lam ^ 2 / (C ^ 2 - lam ^ 2) - B * lam1 ^ 2 / (C ^ 2 - lam1 ^ 2))
    with (- (B * C ^ 2 * (lam1 ^ 2 - lam ^ 2)
             / ((C ^ 2 - lam ^ 2) * (C ^ 2 - lam1 ^ 2))))
    by (field; lra).
  assert (0 <= B * C ^ 2 * (lam1 ^ 2 - lam ^ 2)
               / ((C ^ 2 - lam ^ 2) * (C ^ 2 - lam1 ^ 2))); [ | lra].
  apply Rmult_le_pos.
  - apply Rmult_le_pos; [ | nra]. apply Rmult_le_pos; [lra | nra].
  - left. apply Rinv_0_lt_compat. now apply Rmult_lt_0_compat.
Qed.

(** X17.  For 0 < lam < C1 (all three denominators of the formula positive)
    [sellmeier_equation] returns an index above 1 and [calc_group_index] an
    index below it. *)
Theorem indices_in_band (lam : R) :
  0 < lam -> lam < fringe_functions.C1 ->
  exists n n_g,
    fringe_functions.sellmeier_equation (np.Scalar lam) = Ok (np.Scalar n)
    /\ fringe_functions.calc_group_index (np.Scalar lam) = Ok (np.Scalar n_g)
    /\ 1 < n
    /\ n_g < n.
Proof.
  intros Hl HC.
  exists (formulas.n_phase lam), (formulas.n_group lam).
  split; [apply sellmeier_scalar | ]. split; [apply calc_group_index_scalar | ].
  assert (H1 : lam < fringe_functions.C1) by exact HC.
  assert (H2 : lam < fringe_functions.C2)
    by (unfold fringe_functions.C1, fringe_functions.C2 in *; lra).
  assert (H3 : lam < fringe_functions.C3)
    by (unfold fringe_functions.C1, fringe_functions.C3 in *; lra).
  pose proof (sellmeier_term_pos fringe_functions.B1 fringe_functions.C1 lam
                ltac:(unfold fringe_functions.B1; lra) Hl H1) as T1.
  pose proof (sellmeier_term_pos fringe_functions.B2 fringe_functions.C2 lam
                ltac:(unfold fringe_functions.B2; lra) Hl H2) as T2.
  pose proof (sellmeier_term_pos fringe_functions.B3 fringe_functions.C3 lam
                ltac:(unfold fringe_functions.B3; lra) Hl H3) as T3.
  assert (Hn2 : 1 < formulas.sellmeier_n2 lam)
    by (unfold formulas.sellmeier_n2; lra).
  split.
  - unfold formulas.n_phase. rewrite <- sqrt_1. apply sqrt_lt_1; lra.
  - assert (0 < formulas.n_phase lam - formulas.n_group lam); [ | lra].
    apply index_gap; try lra; nra.
Qed.

Lemma indices_in_band_witness :
  exists n n_g,
    fringe_functions.sellmeier_equation (np.Scalar 675e-9) = Ok (np.Scalar n)
    /\ fringe_functions.calc_group_index (np.Scalar 675e-9) = Ok (np.Scalar n_g)
    /\ 1 < n
    /\ n_g < n.
Proof.
  apply (indices_in_band 675e-9); unfold fringe_functions.C1; lra.
Defined.

(** X18.  For a wavelength in (0, 1e-6], the range of the scripts,
    [sellmeier_equation] returns an index between 1 and 1 + 3e-8. *)
Theorem sellmeier_near_one (lam : R) :
  0 < lam -> lam <= 1e-6 ->
  exists n,
    fringe_functions.sellmeier_equation (np.Scalar lam) = Ok (np.Scalar n)
    /\ 1 < n < 1 + 3e-8.
Proof.
  intros Hl Hu.
  exists (formulas.n_phase lam). split; [apply sellmeier_scalar | ].
  pose proof (sellmeier_term_pos fringe_functions.B1 fringe_functions.C1 lam
                ltac:(unfold fringe_functions.B1; lra) Hl
                ltac:(unfold fringe_functions.C1; lra)) as T1.
  pose proof (sellmeier_term_pos fringe_functions.B2 fringe_functions.C2 lam
                ltac:(unfold fringe_functions.B2; lra) Hl
                ltac:(unfold fringe_functions.C2; lra)) as T2.
  pose proof (sellmeier_term_pos fringe_functions.B3 fringe_functions.C3 lam
                ltac:(unfold fringe_functions.B3; lra) Hl
                ltac:(unfold fringe_functions.C3; lra)) as T3.
  pose proof (sellmeier_term_le fringe_functions.B1 fringe_functions.C1 lam 1e-6
                ltac:(unfold fringe_functions.B1; lra) Hl Hu
                ltac:(unfold fringe_functions.C1; lra)) as U1.
  pose proof (sellmeier_term_le fringe_functions.B2 fringe_functions.C2 lam 1e-6
                ltac:(unfold fringe_functions.B2; lra) Hl Hu
                ltac:(unfold fringe_functions.C2; lra)) as U2.
  pose proof (sellmeier_term_le fringe_functions.B3 fringe_functions.C3 lam 1e-6
                ltac:(unfold fringe_functions.B3; lra) Hl Hu
                ltac:(unfold fringe_functions.C3; lra)) as U3.
  assert (Hn2 : 1 < formulas.sellmeier_n2 lam < 1 + 3e-8).
  { unfold formulas.sellmeier_n2. split; [lra | ].
    unfold fringe_functions.B1, fringe_functions.B2, fringe_functions.B3,
      fringe_functions.C1, fringe_functions.C2, fringe_functions.C3 in *.
    lra. }
  unfold formulas.n_phase.
  assert (Hs : 1 < sqrt (formulas.sellmeier_n2 lam))
    by (rewrite <- sqrt_1 at 1; apply sqrt_lt_1; lra).
  split; [exact Hs | ].
  pose proof (sqrt_sqrt (formulas.sellmeier_n2 lam) ltac:(lra)) as Hsq.
  nra.
Qed.

Lemma sellmeier_near_one_witness :
  exists n,
    fringe_functions.sellmeier_equation (np.Scalar 675e-9) = Ok (np.Scalar n)
    /\ 1 < n < 1 + 3e-8.
Proof.
  apply (sellmeier_near_one 675e-9); lra.
Defined.

































Lemma for_each_ext {A S : Type} (xs : list A) (f g : S -> A -> result S) (s : S) :
  (forall st x, f st x = g st x) ->
  fringe_functions.for_each xs f s = fringe_functions.for_each xs g s.
Proof.
  intro H. revert s; induction xs as [|x xs IH]; intro s; cbn; [reflexivity | ].
  rewrite H. destruct (g s x); cbn; auto.
Qed.

(** X24.  The bias depends on the configuration only through the
    wavelengths, the bandpass, the flux F_0 and the number of iterations:
    not on the bound of the delay error, the visibility, the phase or the
    trial delays. *)
Theorem calc_bias_inputs (cfg cfg' : Config) (s : np.RandomState) :
  wavelengths cfg = wavelengths cfg' ->
  bandpass cfg = bandpass cfg' ->
  fst (fst (true_params cfg)) = fst (fst (true_params cfg')) ->
  n_iter cfg = n_iter cfg' ->
  calc_bias cfg s = calc_bias cfg' s.
Proof.
  intros Hw Hb HF Hn. unfold calc_bias. rewrite Hn.
  rewrite (for_each_ext _ (bias_frame cfg) (bias_frame cfg')); [reflexivity | ].
  intros [va s0] j. unfold bias_frame.
  destruct (true_params cfg) as [[F_0 vis] phi].
  destruct (true_params cfg') as [[F_0' vis'] phi']. cbn in HF. subst F_0'.
  cbn [np.random_sample]. rewrite Hw, Hb.
  now rewrite (cal_coherence_zero_visibility _ 0
                 (2 * error_rms cfg' * np.rs_uniform s0 (np.rs_pos s0)
                  - error_rms cfg') 0 _ _ _ _ (np.pi / 3)).
Qed.

Lemma calc_bias_inputs_witness :
  calc_bias example_config example_draws
  = calc_bias
      (mkConfig [607.5e-9; 622.5e-9] 15e-9 (100, 0.9, 0) [] 0.5 3 1e-3 100 7)
      example_draws.
Proof.
  apply (calc_bias_inputs example_config
           (mkConfig [607.5e-9; 622.5e-9] 15e-9 (100, 0.9, 0) [] 0.5 3 1e-3 100 7)
           example_draws); reflexivity.
Defined.



(** ** No trial delays *)
(** X26.  On an empty trial-delay sequence [group_delay_envelope] returns
    the empty array, [find_delay] on it raises ValueError, and
    [find_delay_AC] raises UnboundLocalError, after plotting the empty curve
    when [plot] is set. *)
Theorem empty_trial_delays (gamma : np.ndarray complex) (gamma_r wavelengths : nd)
        (length lam_0 : R) (plot : bool) :
  fringe_functions.group_delay_envelope gamma [] wavelengths plot
  = Ok (np.Array [], if plot then [([], [])] else [])
  /\ fringe_functions.find_delay (np.Array []) [] = Raise ValueError
  /\ fringe_functions.find_delay_AC gamma_r [] wavelengths length lam_0 plot
     = (Raise UnboundLocalError, if plot then [([], [])] else []).
Proof. destruct plot; repeat split; reflexivity. Qed.

(** X27.  With an empty trial-delay sequence, a positive
    num_group_delay_frames and at least one iteration, the tracking loop
    raises ValueError in its first frame. *)
Theorem tracking_loop_needs_trial_delays (cfg : Config) (s : np.RandomState) :
  trial_delays cfg = [] ->
  (0 < num_group_delay_frames cfg)%Z ->
  (0 < n_iter cfg)%nat ->
  tracking_loop cfg s = Raise ValueError.
Proof.
  intros Htd HN Hn. unfold tracking_loop, frames.
  destruct (n_iter cfg) as [|k]; [lia | ].
  cbn [seq fringe_functions.for_each].
  assert (Hf : frame cfg (setup cfg s) 0 = Raise ValueError).
  { unfold frame, setup. cbn [np.random_sample rng ave_delay_envelope frame_num].
    rewrite (list_as_map_seq (wavelengths cfg)).
    destruct (true_params cfg) as [[F_0 vis] coh_phase].
    rewrite cal_coherence_cases. cbv zeta.
    destruct (_ || _ || _); [reflexivity | ].
    cbn [bind]. rewrite Htd.
    cbn [fringe_functions.group_delay_envelope fringe_functions.for_each bind
         length np.zeros repeat].
    nd_eval. cbn [length Nat.eqb np.zip_with bind].
    destruct (Z.ltb_spec 0 (num_group_delay_frames cfg)) as [_|H]; [ | lia].
    reflexivity. }
  now rewrite Hf.
Qed.

Lemma tracking_loop_needs_trial_delays_witness :
  tracking_loop (script_config [607.5e-9; 622.5e-9] [] (100, 0.5, PI / 6) 0)
    example_draws
  = Raise ValueError.
Proof.
  apply (tracking_loop_needs_trial_delays
           (script_config [607.5e-9; 622.5e-9] [] (100, 0.5, PI / 6) 0)
           example_draws).
  - reflexivity.
  - rewrite script_num_group_delay_frames. lia.
  - cbn. lia.
Defined.

(** ** One channel *)
Lemma single_channel_score (g : complex) (lam d : R) :
  fringe_functions.find_white_fringe (np.Array [g]) d (np.Array [lam])
  = Ok (Cabs g ^ 2).
Proof.
  rewrite find_white_fringe_channels by reflexivity. f_equal.
  unfold white_fringe_sum, np.sum_list. cbn [np.zip_with fold_left add Num_complex].
  rewrite <- (Cabs_mul_phasor g (2 * PI * d / lam)). f_equal.
  unfold Cabs, Cadd, RtoC. cbn [Re Im]. f_equal. ring.
Qed.

(** X28.  With one wavelength channel (a non-zero wavelength) the search
    is blind: every trial delay has the same white-light fringe intensity,
    the squared modulus of the coherence. *)
Theorem single_channel_blind (g : complex) (lam : R) (tds : list R)
        (plot : bool) :
  lam <> 0 ->
  exists envelope figures,
    fringe_functions.group_delay_envelope (np.Array [g]) tds (np.Array [lam])
      plot = Ok (np.Array envelope, figures)
    /\ length envelope = length tds
    /\ Forall (fun F => F = Cabs g ^ 2) envelope.
Proof.
  intros _.
  pose proof (group_delay_envelope_spec (np.Array [g]) tds (np.Array [lam])
                plot) as H.
  destruct (fringe_functions.group_delay_envelope _ _ _ _) as [[env figs]|e].
  - destruct H as [vals [-> [HF _]]]. exists vals, figs.
    split; [reflexivity | ]. split.
    + symmetry. now apply Forall2_nth_error in HF.
    + clear -HF. induction HF as [|d F ds vs Hd HF IH]; constructor; auto.
      rewrite single_channel_score in Hd. now inversion Hd.
  - exfalso. destruct H as [d [_ Hd]].
    rewrite single_channel_score in Hd. discriminate.
Qed.

Lemma single_channel_blind_witness :
  exists envelope figures,
    fringe_functions.group_delay_envelope (np.Array [mkC 0.3 0.4])
      [-1e-6; 0; 1e-6] (np.Array [607.5e-9]) false
    = Ok (np.Array envelope, figures)
    /\ length envelope = length [-1e-6; 0; 1e-6]
    /\ Forall (fun F => F = Cabs (mkC 0.3 0.4) ^ 2) envelope.
Proof.
  apply (single_channel_blind (mkC 0.3 0.4) 607.5e-9 [-1e-6; 0; 1e-6] false).
  lra.
Defined.



(** ** A negative flux *)




